(** * A batching Kinesis producer: model and properties

    Shallow embedding of [kinesis.go]: the producer facade ([New], [Put],
    [Start], [Stop]), the batch assembler ([loop]) and the flusher
    ([flush], [backoff], [failures]).

    Go integers are modelled as [Z]: every length handled here is bounded by
    the address space and every sum the code forms stays far below [2^63], so
    no wrap-around is written out.  Slices of pointers are modelled as lists
    of values (all entries are non-nil in the code paths modelled here).
    The goroutines are modelled by interleaving: a run is a list of actions
    of the callers and of the [select] in [loop], and the [done] channel is
    the rendezvous between [Stop] and [loop] inside the action for [Stop]. *)

From Stdlib Require Import ZArith Lia Strings.String Strings.Byte.
From stdpp Require Import base tactics option list.

Local Open Scope Z_scope.

(** ** Constants *)

Definition megaByte : Z := Z.shiftl 1 20.
Definition maxRecordSize : Z := megaByte.
Definition maxRequestSize : Z := 5 * megaByte.

(** Go's [len] on slices and on strings (a count of bytes). *)
Definition len {A : Type} (l : list A) : Z := Z.of_nat (length l).
Definition strlen (s : string) : Z := Z.of_nat (String.length s).

(** ** Errors *)

Inductive error : Type :=
| ErrRecordSizeExceeded
| ErrOther (msg : string).

(** ** The SDK types the producer handles *)

Record PutRecordsRequestEntry : Type := mkEntry {
  Data : list byte;
  PartitionKey : string
}.

Record PutRecordsResultEntry : Type := mkResult {
  ErrorCode : option string;
  ErrorMessage : option string
}.

Record PutRecordsOutput : Type := mkOutput {
  FailedRecordCount : option Z;
  Records : list PutRecordsResultEntry
}.

Abbreviation Entry := PutRecordsRequestEntry.

(** ** Configuration

    The [Config] struct is declared outside [kinesis.go]; the fields the code
    reads are taken as they are used. *)

Record Config : Type := mkConfig {
  StreamName : string;
  BacklogSize : Z;
  BufferSize : Z;
  FlushInterval : Z;
  Separator : list byte
}.

(** ** Channels

    A buffered Go channel: the buffered values in arrival order, the
    capacity and the closed flag. *)

Record Chan (A : Type) : Type := mkChan {
  queue : list A;
  capacity : Z;
  closed : bool
}.
Arguments mkChan {A} _ _ _.
Arguments queue {A} _.
Arguments capacity {A} _.
Arguments closed {A} _.

Inductive SendResult (A : Type) : Type :=
| Sent (ch : Chan A)
| SendBlocks
| SendOnClosed.
Arguments Sent {A} _.
Arguments SendBlocks {A}.
Arguments SendOnClosed {A}.

(** [ch <- x] with no receiver waiting: a send on a closed channel panics,
    a send on a full buffer blocks, otherwise the value joins the buffer. *)
Definition chan_send {A : Type} (ch : Chan A) (x : A) : SendResult A :=
  if closed ch then SendOnClosed
  else if len (queue ch) <? capacity ch
       then Sent (mkChan (queue ch ++ [x]) (capacity ch) (closed ch))
       else SendBlocks.

Definition chan_close {A : Type} (ch : Chan A) : Chan A :=
  mkChan (queue ch) (capacity ch) true.

(** ** Producer

    The embedded [Config] and the [records] channel; the [done] channel
    carries no data and is part of the state of the running system below. *)

Record Producer : Type := mkProducer {
  config : Config;
  records : Chan Entry
}.

Section Facade.

(** [config.defaults()] is not part of [kinesis.go]. *)
Variable defaults : Config -> Config.

Definition New (c : Config) : Producer :=
  let c := defaults c in
  mkProducer c (mkChan [] (BacklogSize c) false).

End Facade.

Inductive PutOutcome : Type :=
| PutReturns (err : option error) (p : Producer)
| PutBlocks
| PutPanics.

(** The record [Put] hands to the queue. *)
Definition put_entry (p : Producer) (data : list byte) (partitionKey : string) : Entry :=
  mkEntry (data ++ Separator (config p)) partitionKey.

Definition Put (p : Producer) (data : list byte) (partitionKey : string) : PutOutcome :=
  if len data + strlen partitionKey + len (Separator (config p)) >? maxRecordSize
  then PutReturns (Some ErrRecordSizeExceeded) p
  else match chan_send (records p) (put_entry p data partitionKey) with
       | Sent ch => PutReturns None (mkProducer (config p) ch)
       | SendBlocks => PutBlocks
       | SendOnClosed => PutPanics
       end.

(** ** Outcomes of effectful code *)

Inductive outcome (A : Type) : Type :=
| Ret (a : A)
| Panic (msg : string)
| OutOfFuel.
Arguments Ret {A} _.
Arguments Panic {A} _.
Arguments OutOfFuel {A}.

(** ** [failures]

    The [range] loop over [response], with the index [i] and the accumulator
    [out]; [records[i]] panics when [i] is out of range. *)

Definition hasError (r : PutRecordsResultEntry) : bool :=
  match ErrorCode r with Some _ => true | None => false end.

Fixpoint failures_range (records : list Entry) (i : nat)
    (response : list PutRecordsResultEntry) (out : list Entry) : outcome (list Entry) :=
  match response with
  | [] => Ret out
  | record :: rest =>
      if hasError record then
        match records !! i with
        | Some r => failures_range records (S i) rest (out ++ [r])
        | None => Panic "index out of range"
        end
      else failures_range records (S i) rest out
  end.

Definition failures (records : list Entry) (response : list PutRecordsResultEntry)
    : outcome (list Entry) :=
  failures_range records 0 response [].

(** ** The collaborators of the flusher

    The submission capability ([p.Client]) and the backoff policy
    ([p.Backoff]) are interfaces to code outside this package: a state
    machine each. *)

Class KinesisAPI (C : Type) : Type :=
  PutRecords : C -> string -> list Entry -> (PutRecordsOutput + error) * C.

Class BackoffPolicy (B : Type) : Type :=
  { Duration : B -> Z * B; Reset : B -> B }.

(** What the flusher does to the outside, in order.  [EvFlush] marks the
    entry into [flush] with its arguments (the code itself never reads
    [reason]); the others are the calls on the client, the backoff policy,
    [time.Sleep] and the logger. *)

Inductive Level : Type := InfoLevel | WarnLevel | ErrorLevel.

Inductive FieldValue : Type :=
| FString (s : string)
| FInt (n : Z)
| FDuration (d : Z)
| FError (e : error).

Inductive Event : Type :=
| EvFlush (records : list Entry) (reason : string)
| EvPutRecords (stream : string) (records : list Entry)
| EvDuration (d : Z)
| EvReset
| EvSleep (d : Z)
| EvLog (level : Level) (msg : string) (fields : list (string * FieldValue)).

Record World (C B : Type) : Type := mkWorld {
  client : C;
  policy : B;
  trace : list Event
}.
Arguments mkWorld {C B} _ _ _.
Arguments client {C B} _.
Arguments policy {C B} _.
Arguments trace {C B} _.

(** ** A state monad with panics and fuel *)

Definition M (C B A : Type) : Type := World C B -> outcome A * World C B.

Definition ret {C B A : Type} (a : A) : M C B A := fun w => (Ret a, w).

Definition bind {C B A A' : Type} (m : M C B A) (k : A -> M C B A') : M C B A' :=
  fun w =>
    match m w with
    | (Ret a, w') => k a w'
    | (Panic msg, w') => (Panic msg, w')
    | (OutOfFuel, w') => (OutOfFuel, w')
    end.

Definition panic {C B A : Type} (msg : string) : M C B A := fun w => (Panic msg, w).

Definition timeout {C B A : Type} : M C B A := fun w => (OutOfFuel, w).

Definition lift {C B A : Type} (o : outcome A) : M C B A := fun w => (o, w).

Definition emit {C B : Type} (e : Event) : M C B unit :=
  fun w => (Ret tt, mkWorld (client w) (policy w) (trace w ++ [e])).

Declare Scope go_scope.
Delimit Scope go_scope with go.
Notation "x <- m ;; k" := (bind m (fun x => k))
  (at level 100, m at next level, right associativity) : go_scope.
Notation "m ;; k" := (bind m (fun _ => k))
  (at level 100, right associativity) : go_scope.
Local Open Scope go_scope.

Section Flusher.

Context {C B : Type} `{KinesisAPI C} `{BackoffPolicy B}.

Definition Client_PutRecords (stream : string) (records : list Entry)
    : M C B (PutRecordsOutput + error) :=
  fun w =>
    let '(r, c) := PutRecords (client w) stream records in
    (Ret r, mkWorld c (policy w) (trace w ++ [EvPutRecords stream records])).

Definition Backoff_Duration : M C B Z :=
  fun w =>
    let '(d, b) := Duration (policy w) in
    (Ret d, mkWorld (client w) b (trace w ++ [EvDuration d])).

Definition Backoff_Reset : M C B unit :=
  fun w => (Ret tt, mkWorld (client w) (Reset (policy w)) (trace w ++ [EvReset])).

Definition time_Sleep (d : Z) : M C B unit := emit (EvSleep d).

(** [backoff]: calculates backoff duration and pauses execution. *)
Definition backoff (failed : Z) : M C B unit :=
  d <- Backoff_Duration ;;
  emit (EvLog WarnLevel "put failures" [("failures"%string, FInt failed); ("backoff"%string, FDuration d)]) ;;
  time_Sleep d.

(** The [range out.Records] loop of [flush] that logs every rejection;
    it dereferences [r.ErrorMessage] of every entry with an error code. *)
Fixpoint log_rejected (rs : list PutRecordsResultEntry) : M C B unit :=
  match rs with
  | [] => ret tt
  | r :: rest =>
      match ErrorCode r with
      | None => log_rejected rest
      | Some code =>
          match ErrorMessage r with
          | None => panic "nil pointer dereference"
          | Some msg =>
              emit (EvLog ErrorLevel "push record" [("code"%string, FString code); ("message"%string, FString msg)]) ;;
              log_rejected rest
          end
      end
  end.

(** [flush]: flush records and retry failures if necessary.  The Go
    function calls itself without bound; [fuel] bounds the number of
    submissions and [OutOfFuel] stands for a call that has not returned
    yet. *)
Fixpoint flush (fuel : nat) (p : Config) (records : list Entry) (reason : string)
    : M C B unit :=
  match fuel with
  | O => timeout
  | S fuel =>
      emit (EvFlush records reason) ;;
      r <- Client_PutRecords (StreamName p) records ;;
      match r with
      | inr err =>
          emit (EvLog ErrorLevel "flush" [("error"%string, FError err)]) ;;
          backoff (len records) ;;
          flush fuel p records "error"
      | inl out =>
          match FailedRecordCount out with
          | None => panic "nil pointer dereference"
          | Some failed =>
              if failed =? 0 then Backoff_Reset
              else
                log_rejected (Records out) ;;
                backoff failed ;;
                retry <- lift (failures records (Records out)) ;;
                flush fuel p retry "retry"
          end
      end
  end.

(** ** The batch assembler *)

Record Locals : Type := mkLocals {
  buf : list Entry;
  bufSize : Z;
  drain : bool
}.

(** How one pass through the [select] ends: the [for] goes on, or [loop]
    returns (the locals it leaves behind are kept for inspection). *)
Inductive Ctl : Type :=
| Continue (l : Locals)
| Return (l : Locals).

(** The statements of [loop] before the [for]: [make] with a negative
    capacity and [time.NewTicker] with a non-positive interval panic. *)
Definition loop_enter (p : Config) : outcome Locals :=
  if BufferSize p <? 0 then Panic "makeslice: cap out of range"
  else if FlushInterval p <=? 0 then Panic "non-positive interval for NewTicker"
  else Ret (mkLocals [] 0 false).

(** [case record := <-p.records]; [backlog] is [len(p.records)] after the
    receive. *)
Definition case_record (fuel : nat) (p : Config) (backlog : Z) (l : Locals) (record : Entry)
    : M C B Ctl :=
  let recordSize := strlen (PartitionKey record) + len (Data record) in
  l <- (if bufSize l + recordSize >? maxRequestSize
        then flush fuel p (buf l) "request size" ;; ret (mkLocals [] 0 (drain l))
        else ret l) ;;
  let l := mkLocals (buf l ++ [record]) (bufSize l + recordSize) (drain l) in
  l <- (if len (buf l) >=? BufferSize p
        then flush fuel p (buf l) "buffer size" ;; ret (mkLocals [] 0 (drain l))
        else ret l) ;;
  if drain l && (backlog =? 0)
  then emit (EvLog InfoLevel "drained" []) ;; ret (Return l)
  else ret (Continue l).

(** The record case from the append on, for the locals the size check
    leaves: a name for the second half of [case_record], used to reason
    about the two halves one after the other. *)
Definition append_and_check (fuel : nat) (p : Config) (backlog : Z) (record : Entry)
    (l : Locals) : M C B Ctl :=
  let recordSize := strlen (PartitionKey record) + len (Data record) in
  let l := mkLocals (buf l ++ [record]) (bufSize l + recordSize) (drain l) in
  l <- (if len (buf l) >=? BufferSize p
        then flush fuel p (buf l) "buffer size" ;; ret (mkLocals [] 0 (drain l))
        else ret l) ;;
  if drain l && (backlog =? 0)
  then emit (EvLog InfoLevel "drained" []) ;; ret (Return l)
  else ret (Continue l).

(** [case <-tick.C] *)
Definition case_tick (fuel : nat) (p : Config) (l : Locals) : M C B Ctl :=
  if len (buf l) >? 0
  then flush fuel p (buf l) "interval" ;; ret (Continue (mkLocals [] 0 (drain l)))
  else ret (Continue l).

(** [case <-p.done] *)
Definition case_done (backlog : Z) (l : Locals) : M C B Ctl :=
  let l := mkLocals (buf l) (bufSize l) true in
  if backlog =? 0 then ret (Return l) else ret (Continue l).

(** ** The running system

    The producer, the goroutine of [loop] parked at its [select] (or gone),
    and the world the flusher acts on.  [Hung] is a [flush] that did not
    return within the fuel. *)

Inductive Status : Type :=
| Selecting
| Exited
| Crashed (msg : string)
| Hung.

Record System : Type := mkSystem {
  producer : Producer;
  locals : Locals;
  status : Status;
  stopping : bool;
  world : World C B
}.

(** [Start]: [go p.loop()], up to the first [select]. *)
Definition Start (p : Producer) (w : World C B) : System :=
  match loop_enter (config p) with
  | Ret l => mkSystem p l Selecting false w
  | Panic msg => mkSystem p (mkLocals [] 0 false) (Crashed msg) false w
  | OutOfFuel => mkSystem p (mkLocals [] 0 false) Hung false w
  end.

Inductive RecvResult : Type :=
| Received (x : Entry) (ch : Chan Entry)
| ReceivedNil
| RecvBlocks.

(** [<-ch]: the oldest buffered value; on an empty channel the zero value
    (a nil pointer) when it is closed, and no progress otherwise. *)
Definition chan_recv (ch : Chan Entry) : RecvResult :=
  match queue ch with
  | x :: q => Received x (mkChan q (capacity ch) (closed ch))
  | [] => if closed ch then ReceivedNil else RecvBlocks
  end.

(** What the outside and the scheduler can do next: a caller runs [Put]
    and its record joins the queue ([CallPut]) or, the queue being empty and
    [loop] waiting at its [select], goes straight to [loop] ([PutToLoop],
    the only way a send completes on a channel without buffer); a caller
    runs [Stop]; the [select] of [loop] takes the record case or the tick
    case.  (The done case is taken together with the send in [Stop], and the
    backlog [Stop] logs is read at that moment.) *)
Inductive Action : Type :=
| CallPut (data : list byte) (partitionKey : string)
| PutToLoop (data : list byte) (partitionKey : string)
| CallStop
| SelectRecord
| SelectTick.

(** After one pass of the loop.  When [loop] returns, its deferred
    [close(p.done)] lets the pending [Stop] log and return. *)
Definition settle (s : System) (p : Producer) (r : outcome Ctl * World C B) : System :=
  match r with
  | (Ret (Continue l), w) => mkSystem p l Selecting (stopping s) w
  | (Ret (Return l), w) =>
      mkSystem p l Exited (stopping s)
        (if stopping s
         then mkWorld (client w) (policy w) (trace w ++ [EvLog InfoLevel "stopped producer" []])
         else w)
  | (Panic msg, w) => mkSystem p (locals s) (Crashed msg) (stopping s) w
  | (OutOfFuel, w) => mkSystem p (locals s) Hung (stopping s) w
  end.

(** One action; [None] when the action cannot take place in this state
    (it blocks, or the goroutine it belongs to is gone).  A pass of the
    loop is taken as one step: a [Put] that arrives during a pass only
    appends to the queue, which the pass reads again only when draining,
    that is after [Stop], when no [Put] is valid any more. *)
Definition step (fuel : nat) (a : Action) (s : System) : option System :=
  let p := producer s in
  match a with
  | CallPut data partitionKey =>
      match status s with
      | Crashed _ => None
      | _ =>
          match Put p data partitionKey with
          | PutReturns _ p' => Some (mkSystem p' (locals s) (status s) (stopping s) (world s))
          | PutBlocks => None
          | PutPanics =>
              Some (mkSystem p (locals s) (Crashed "send on closed channel") (stopping s) (world s))
          end
      end
  | PutToLoop data partitionKey =>
      match status s with
      | Selecting =>
          if (len data + strlen partitionKey + len (Separator (config p)) >? maxRecordSize)
             || closed (records p)
             || negb (len (queue (records p)) =? 0)
          then None
          else Some (settle s p
                       (case_record fuel (config p) 0 (locals s)
                          (put_entry p data partitionKey) (world s)))
      | _ => None
      end
  | CallStop =>
      match status s, stopping s with
      | Selecting, false =>
          let backlog := len (queue (records p)) in
          let s' := mkSystem p (locals s) Selecting true (world s) in
          Some (settle s' (mkProducer (config p) (chan_close (records p)))
                  ((emit (EvLog InfoLevel "stopping producer" [("backlog"%string, FInt backlog)]) ;;
                    case_done backlog (locals s)) (world s)))
      | _, _ => None
      end
  | SelectRecord =>
      match status s with
      | Selecting =>
          match chan_recv (records p) with
          | Received record ch =>
              Some (settle s (mkProducer (config p) ch)
                      (case_record fuel (config p) (len (queue ch)) (locals s) record (world s)))
          | ReceivedNil =>
              Some (mkSystem p (locals s) (Crashed "nil pointer dereference") (stopping s) (world s))
          | RecvBlocks => None
          end
      | _ => None
      end
  | SelectTick =>
      match status s with
      | Selecting => Some (settle s p (case_tick fuel (config p) (locals s) (world s)))
      | _ => None
      end
  end.

Fixpoint run (fuel : nat) (acts : list Action) (s : System) : option System :=
  match acts with
  | [] => Some s
  | a :: acts =>
      match step fuel a s with
      | Some s' => run fuel acts s'
      | None => None
      end
  end.

End Flusher.

Arguments Locals : clear implicits.
Arguments System : clear implicits.

(** ** Concrete collaborators *)

(** Modelled from the spec: the backoff policy type is declared outside
    [kinesis.go].  [Duration] is computed from an internal attempt counter,
    non-decreasing with consecutive failures up to a ceiling, and [Reset]
    clears the attempt counter. *)
Record ExpBackoff : Type := mkExpBackoff {
  attempt : nat;
  floor_ms : Z;
  ceiling_ms : Z
}.

#[export] Instance ExpBackoff_policy : BackoffPolicy ExpBackoff :=
  {| Duration b :=
       (Z.min (floor_ms b * 2 ^ Z.of_nat (attempt b)) (ceiling_ms b),
        mkExpBackoff (S (attempt b)) (floor_ms b) (ceiling_ms b));
     Reset b := mkExpBackoff 0 (floor_ms b) (ceiling_ms b) |}.

(** A scripted submission capability: one reply per call.  [Fail] is a
    transport-level error, [Reject f] a structured result with one entry per
    submitted record in which position [i] is rejected when [f i] holds,
    [Raw out] an arbitrary structured result.  When the script is over every
    record is accepted. *)
Inductive Reply : Type :=
| Fail (e : error)
| Reject (f : nat -> bool)
| Raw (out : PutRecordsOutput).

Definition verdict (f : nat -> bool) (i : nat) (_ : Entry) : PutRecordsResultEntry :=
  if f i
  then mkResult (Some "ProvisionedThroughputExceededException"%string) (Some "Rate exceeded"%string)
  else mkResult None None.

Definition structured (f : nat -> bool) (records : list Entry) : PutRecordsOutput :=
  let entries := imap (verdict f) records in
  mkOutput (Some (len (filter hasError entries))) entries.

#[export] Instance Script_client : KinesisAPI (list Reply) :=
  fun script _ records =>
    match script with
    | [] => (inl (structured (fun _ => false) records), [])
    | Fail e :: script => (inr e, script)
    | Reject f :: script => (inl (structured f records), script)
    | Raw out :: script => (inl out, script)
    end.

(** ** Reading a trace *)

(** The record lists handed to [PutRecords], in order. *)
Definition submissions (t : list Event) : list (list Entry) :=
  omap (fun e => match e with EvPutRecords _ rs => Some rs | _ => None end) t.

(** The durations slept, in order. *)
Definition sleeps (t : list Event) : list Z :=
  omap (fun e => match e with EvSleep d => Some d | _ => None end) t.

(** The number of calls of [Reset]. *)
Definition isReset (e : Event) : bool :=
  match e with EvReset => true | _ => false end.

Definition resets (t : list Event) : nat := length (filter isReset t).

(** The reasons [loop] passes to [flush]; [flush] itself passes "error" and
    "retry". *)
Definition issued_by_loop (reason : string) : bool :=
  ((reason =? "request size") || (reason =? "buffer size") || (reason =? "interval"))%string.

(** The batches [loop] handed to [flush], in order. *)
Definition loop_flushes (t : list Event) : list (list Entry) :=
  omap (fun e => match e with
                 | EvFlush rs reason => if issued_by_loop reason then Some rs else None
                 | _ => None
                 end) t.

(** Record and batch sizes as [loop] accounts for them. *)
Definition recordSize (record : Entry) : Z :=
  strlen (PartitionKey record) + len (Data record).

Definition batchSize (rs : list Entry) : Z :=
  foldr (fun r acc => recordSize r + acc) 0 rs.

(** The records a response rejects, paired by position. *)
Definition rejected (records : list Entry) (response : list PutRecordsResultEntry)
    : list Entry :=
  (filter (fun x => hasError x.2) (zip records response)).*1.

(** A structured result as the service documents it: one entry per
    submitted record, a failed count that counts the entries carrying an
    error code, and a message with every error code. *)
Definition consistent (records : list Entry) (out : PutRecordsOutput) : Prop :=
  length (Records out) = length records ∧
  FailedRecordCount out = Some (len (filter hasError (Records out))) ∧
  Forall (fun r => hasError r = true -> is_Some (ErrorMessage r)) (Records out).

(** The indices [i] at which the [range] loop of [failures] evaluates
    [records[i]], from index [i] on (when no earlier access panics). *)
Fixpoint accessed_from (i : nat) (response : list PutRecordsResultEntry) : list nat :=
  match response with
  | [] => []
  | record :: rest =>
      if hasError record then i :: accessed_from (S i) rest
      else accessed_from (S i) rest
  end.

Definition accessed (response : list PutRecordsResultEntry) : list nat :=
  accessed_from 0 response.

(** A producer to run examples on: a backlog of ten records, batches of two
    records, a newline as separator. *)
Definition demo_config : Config := mkConfig "stream" 10 2 3600000 ["010"%byte].
Definition demo_producer : Producer := New (fun c => c) demo_config.

(** ** What one round of [flush] adds to the trace *)

(** The events of [backoff failed] when the policy answers [d]. *)
Definition backoff_events (failed d : Z) : list Event :=
  [EvDuration d;
   EvLog WarnLevel "put failures" [("failures"%string, FInt failed); ("backoff"%string, FDuration d)];
   EvSleep d].

(** The events of the loop that logs the rejections, when every rejected
    entry carries a message. *)
Definition rejection_logs (rs : list PutRecordsResultEntry) : list Event :=
  omap (fun r =>
          match ErrorCode r, ErrorMessage r with
          | Some code, Some msg =>
              Some (EvLog ErrorLevel "push record"
                      [("code"%string, FString code); ("message"%string, FString msg)])
          | _, _ => None
          end) rs.

Definition isLog (e : Event) : bool :=
  match e with EvLog _ _ _ => true | _ => false end.

(** ** Runs of failed submissions *)

Section Rounds.

Context {C B : Type} `{KinesisAPI C} `{BackoffPolicy B}.

(** The next [k] calls of [PutRecords] with [records] end in a
    transport-level error, with [errs] the errors in order. *)
Fixpoint fails_with (errs : list error) (c : C) (stream : string) (records : list Entry)
    : Prop :=
  match errs with
  | [] => True
  | err :: errs =>
      exists c', PutRecords c stream records = (inr err, c') /\
                 fails_with errs c' stream records
  end.

(** The durations the policy hands out over [k] consecutive calls of
    [Duration], and the policy after them. *)
Fixpoint waits (k : nat) (b : B) : list Z :=
  match k with
  | O => []
  | S k => (Duration b).1 :: waits k (Duration b).2
  end.

Fixpoint escalate (k : nat) (b : B) : B :=
  match k with
  | O => b
  | S k => escalate k (Duration b).2
  end.

(** The trace of the rounds of [flush] that end in the transport errors
    [errs]: submit, log the error, ask the policy, log, sleep. *)
Fixpoint error_rounds (p : Config) (records : list Entry) (reason : string)
    (errs : list error) (b : B) : list Event :=
  match errs with
  | [] => []
  | err :: errs =>
      [EvFlush records reason; EvPutRecords (StreamName p) records;
       EvLog ErrorLevel "flush" [("error"%string, FError err)]]
      ++ backoff_events (len records) (Duration b).1
      ++ error_rounds p records "error" errs (Duration b).2
  end.

(** A submission that fails and is answered with a backoff: a transport
    error, or a structured result that reports failures. *)
Definition fails_once (c : C) (stream : string) (records : list Entry) : Prop :=
  match (PutRecords c stream records).1 with
  | inr _ => True
  | inl out =>
      exists N, FailedRecordCount out = Some N /\ N <> 0 /\
                Forall (fun r => hasError r = true -> is_Some (ErrorMessage r)) (Records out)
  end.

(** The duration the policy hands out right after a [Reset]. *)
Definition baseline (b : B) : Z := (Duration (Reset b)).1.

End Rounds.

(** A batch, a policy and a world to run examples on: the policy starts at
    100 ms, doubles, and stops growing at 10 s. *)
Definition demo_batch : list Entry :=
  [mkEntry ["a"%byte] "k1"; mkEntry ["b"%byte] "k2"; mkEntry ["c"%byte] "k3"].

Definition demo_policy (attempts : nat) : ExpBackoff := mkExpBackoff attempts 100 10000.

Definition demo_world (script : list Reply) (attempts : nat)
    : World (list Reply) ExpBackoff :=
  mkWorld script (demo_policy attempts) [].

(** The reading of "backoff proportional to the number of failures": some
    factor, which may depend on the state of the policy, times the number of
    failed records gives the duration slept after a structured partial
    failure. *)
Definition sleep_proportional_to_failures (C B : Type)
    `{KinesisAPI C} `{BackoffPolicy B} : Prop :=
  exists factor : B -> Z,
    forall (p : Config) (records : list Entry) (reason : string) (w : World C B)
           (out : PutRecordsOutput) (c : C) (N : Z),
      PutRecords (client w) (StreamName p) records = (inl out, c) ->
      consistent records out ->
      FailedRecordCount out = Some N ->
      N <> 0 ->
      sleeps (trace (flush 1 p records reason w).2)
      = sleeps (trace w) ++ [factor (policy w) * N].

(** ** Invariants of the assembler *)

(** The bounds on a batch that a running [loop] flushes: the request size,
    and the buffer size (a batch holds at least the record just appended,
    so a buffer size of zero still gives batches of one record); [loop] only
    got past its [make] with a buffer size that is not negative. *)
Definition batch_ok (cfg : Config) (rs : list Entry) : Prop :=
  batchSize rs <= maxRequestSize /\
  len rs <= Z.max 1 (BufferSize cfg) /\
  0 <= BufferSize cfg.

(** Between two passes of the loop [bufSize] is the size of [buf], within
    the request limit, and [buf] is short of a full batch. *)
Definition locals_ok (cfg : Config) (l : Locals) : Prop :=
  bufSize l = batchSize (buf l) /\
  batchSize (buf l) <= maxRequestSize /\
  (buf l = [] \/ len (buf l) < BufferSize cfg).

(** What a pass of the loop leaves behind is in order. *)
Definition ctl_ok (cfg : Config) (o : outcome Ctl) : Prop :=
  match o with
  | Ret (Continue l) | Ret (Return l) => locals_ok cfg l
  | _ => True
  end.

Definition system_ok {C B : Type} (cfg : Config) (s : System C B) : Prop :=
  config (producer s) = cfg /\
  Forall (fun r => recordSize r <= maxRecordSize) (queue (records (producer s))) /\
  locals_ok cfg (locals s) /\
  (status s = Selecting -> 0 <= BufferSize cfg).

(** The system right after [New] and [Start], with a client, a policy and an
    empty trace. *)
Definition boot {C B : Type} `{KinesisAPI C} `{BackoffPolicy B}
    (defaults : Config -> Config) (c : Config) (cl : C) (b : B) : System C B :=
  Start (New defaults c) (mkWorld cl b []).

(** A set of client states that is closed under calls and in which every
    structured result is consistent with the records submitted. *)
Definition honest {C : Type} `{KinesisAPI C} (I : C -> Prop) : Prop :=
  forall (c : C) (stream : string) (records : list Entry),
    I c ->
    match PutRecords c stream records with
    | (inl out, c') => consistent records out /\ I c'
    | (inr _, c') => I c'
    end.

(** The scripts without a [Raw] reply. *)
Definition scripted_honestly (script : list Reply) : Prop :=
  Forall (fun reply => match reply with Raw _ => False | _ => True end) script.

(** Scenario A of the spec on [demo_config] (batches of two records, a
    flush interval of one hour, so no tick): three small records are put,
    then [Stop] is called; once after the loop has taken all three records,
    once while they are still queued. *)
Definition scenario_A : list Action :=
  [CallPut ["a"%byte] "k"; CallPut ["b"%byte] "k"; CallPut ["c"%byte] "k";
   SelectRecord; SelectRecord; SelectRecord; CallStop].

Definition scenario_A_backlog : list Action :=
  [CallPut ["a"%byte] "k"; CallPut ["b"%byte] "k"; CallPut ["c"%byte] "k";
   CallStop; SelectRecord; SelectRecord; SelectRecord].

(** The records of scenario A as [Put] queues them, separator appended. *)
Definition record_a : Entry := mkEntry ["a"%byte; "010"%byte] "k".
Definition record_b : Entry := mkEntry ["b"%byte; "010"%byte] "k".
Definition record_c : Entry := mkEntry ["c"%byte; "010"%byte] "k".

(** A run on which the client first fails, then rejects the second record,
    then accepts: two records are put and taken by the loop. *)
Definition flaky_run : list Action :=
  [CallPut ["a"%byte] "k"; CallPut ["b"%byte] "k"; SelectRecord; SelectRecord].

Definition flaky_script : list Reply :=
  [Fail (ErrOther "timeout"); Reject (Nat.eqb 1)].

(** A structured result for two records that reports one failure and marks
    no entry with an error code. *)
Definition miscounted_result : PutRecordsOutput :=
  mkOutput (Some 1) [mkResult None None; mkResult None None].

(** ** More to read from a trace and from a run *)

(** The durations the backoff policy handed out, in order. *)
Definition durations (t : list Event) : list Z :=
  omap (fun e => match e with EvDuration d => Some d | _ => None end) t.

(** The loop goroutine is at its [select] or has returned: no [flush] is
    pending and nothing has panicked. *)
Definition alive (st : Status) : bool :=
  match st with
  | Selecting | Exited => true
  | Crashed _ | Hung => false
  end.

(** The record an action brings into the producer: the one [Put] builds,
    when it passes the size check. *)
Definition taken (cfg : Config) (a : Action) : list Entry :=
  match a with
  | CallPut data partitionKey | PutToLoop data partitionKey =>
      if len data + strlen partitionKey + len (Separator cfg) >? maxRecordSize
      then []
      else [mkEntry (data ++ Separator cfg) partitionKey]
  | CallStop | SelectRecord | SelectTick => []
  end.

(** The records [Put] accepted over a run, in the order of the calls. *)
Definition accepted (cfg : Config) (acts : list Action) : list Entry :=
  concat (map (taken cfg) acts).

(** The records the producer holds or has handed to [flush], oldest first:
    the batches [loop] flushed, the buffer of [loop], the queue. *)
Definition inflight {C B : Type} (s : System C B) : list Entry :=
  concat (loop_flushes (trace (world s)))
  ++ buf (locals s)
  ++ queue (records (producer s)).

(** The locals a pass of the loop ends with, and whether it ends [loop]. *)
Definition ctl_locals (ctl : Ctl) : Locals :=
  match ctl with Continue l | Return l => l end.

Definition is_return (ctl : Ctl) : bool :=
  match ctl with Return _ => true | Continue _ => false end.

(** A structured result for three records that rejects the second with an
    error code and no message. *)
Definition unexplained_result : PutRecordsOutput :=
  mkOutput (Some 1)
    [mkResult None None; mkResult (Some "InternalFailure"%string) None; mkResult None None].

(** How the shutdown stands: [drain] and the closing of the queue go with
    the call of [Stop]; [loop] has returned only after [Stop] and with the
    queue empty; and after [Stop] it is still at its [select] only while
    records are queued. *)
Definition shutdown_ok {C B : Type} (s : System C B) : Prop :=
  drain (locals s) = stopping s /\
  closed (records (producer s)) = stopping s /\
  (status s = Exited -> stopping s = true /\ queue (records (producer s)) = []) /\
  (status s = Selecting -> stopping s = true -> queue (records (producer s)) <> []).

(** Scenario A up to the call of [Stop] with the records still queued. *)
Definition scenario_A_stopping : list Action :=
  [CallPut ["a"%byte] "k"; CallPut ["b"%byte] "k"; CallPut ["c"%byte] "k"; CallStop].

(** A producer with room for two records in its queue. *)
Definition tiny_config : Config := mkConfig "stream" 2 5 3600000 [].

(** A set of client states that is closed under calls and in which every
    submission is answered with a structured result that reports no
    failure. *)
Definition accepting {C : Type} `{KinesisAPI C} (I : C -> Prop) : Prop :=
  forall (c : C) (stream : string) (records : list Entry),
    I c ->
    exists out c',
      PutRecords c stream records = (inl out, c') /\
      FailedRecordCount out = Some 0 /\
      I c'.

(** What holds of the world while the service accepts everything: the
    client stays accepting and every batch of [loop] was submitted once. *)
Definition healthy {C B : Type} (I : C -> Prop) (w : World C B) : Prop :=
  I (client w) /\ submissions (trace w) = loop_flushes (trace w).

(** * Properties *)

(** ** Sizes *)

Lemma maxRecordSize_value : maxRecordSize = 1048576.
Proof. reflexivity. Qed.

Lemma maxRequestSize_value : maxRequestSize = 5242880.
Proof. reflexivity. Qed.

Lemma len_app {A : Type} (l k : list A) : len (l ++ k) = len l + len k.
Proof. unfold len. rewrite length_app. lia. Qed.

Lemma len_nonneg {A : Type} (l : list A) : 0 <= len l.
Proof. unfold len. lia. Qed.

Lemma len_replicate {A : Type} (n : Z) (x : A) : 0 <= n -> len (replicate (Z.to_nat n) x) = n.
Proof. intros Hn. unfold len. rewrite length_replicate. lia. Qed.

Lemma recordSize_put_entry (p : Producer) (data : list byte) (partitionKey : string) :
  recordSize (put_entry p data partitionKey)
  = len data + strlen partitionKey + len (Separator (config p)).
Proof. unfold recordSize, put_entry. simpl. rewrite len_app. lia. Qed.

(** ** [Put] *)

Lemma Put_rejects (p : Producer) (data : list byte) (partitionKey : string) :
  len data + strlen partitionKey + len (Separator (config p)) > maxRecordSize ->
  Put p data partitionKey = PutReturns (Some ErrRecordSizeExceeded) p.
Proof.
  intros Hbig. unfold Put.
  destruct (Z.gtb_spec (len data + strlen partitionKey + len (Separator (config p))) maxRecordSize);
    [reflexivity | lia].
Qed.

Lemma Put_accepts (p : Producer) (data : list byte) (partitionKey : string) :
  len data + strlen partitionKey + len (Separator (config p)) <= maxRecordSize ->
  closed (records p) = false ->
  len (queue (records p)) < capacity (records p) ->
  Put p data partitionKey
  = PutReturns None
      (mkProducer (config p)
         (mkChan (queue (records p) ++ [put_entry p data partitionKey])
            (capacity (records p)) false)).
Proof.
  intros Hfit Hopen Hroom. unfold Put, chan_send.
  destruct (Z.gtb_spec (len data + strlen partitionKey + len (Separator (config p))) maxRecordSize);
    [lia |].
  rewrite Hopen.
  destruct (Z.ltb_spec (len (queue (records p))) (capacity (records p))); [reflexivity | lia].
Qed.

Lemma Put_full_blocks (p : Producer) (data : list byte) (partitionKey : string) :
  len data + strlen partitionKey + len (Separator (config p)) <= maxRecordSize ->
  closed (records p) = false ->
  capacity (records p) <= len (queue (records p)) ->
  Put p data partitionKey = PutBlocks.
Proof.
  intros Hfit Hopen Hfull. unfold Put, chan_send.
  destruct (Z.gtb_spec (len data + strlen partitionKey + len (Separator (config p))) maxRecordSize);
    [lia |].
  rewrite Hopen.
  destruct (Z.ltb_spec (len (queue (records p))) (capacity (records p))); [lia | reflexivity].
Qed.

(** Whenever [Put] returns, it either rejected an oversized record and left
    the producer alone, or took a fitting record and appended it. *)
Lemma Put_returns_inv (p p' : Producer) (data : list byte) (partitionKey : string)
    (err : option error) :
  Put p data partitionKey = PutReturns err p' ->
  (err = Some ErrRecordSizeExceeded /\ p' = p /\
   len data + strlen partitionKey + len (Separator (config p)) > maxRecordSize)
  \/
  (err = None /\ config p' = config p /\
   len data + strlen partitionKey + len (Separator (config p)) <= maxRecordSize /\
   queue (records p') = queue (records p) ++ [put_entry p data partitionKey] /\
   capacity (records p') = capacity (records p) /\
   closed (records p') = closed (records p)).
Proof.
  unfold Put, chan_send.
  destruct (Z.gtb_spec (len data + strlen partitionKey + len (Separator (config p))) maxRecordSize).
  - intros [= <- <-]. left. repeat split; [lia].
  - destruct (closed (records p)) eqn:Hc; [discriminate |].
    destruct (len (queue (records p)) <? capacity (records p)); [| discriminate].
    intros [= <- <-]. right. simpl. repeat split; first [lia | congruence].
Qed.

(** C3: a record whose data, partition key and separator together exceed
    [maxRecordSize] makes [Put] return [ErrRecordSizeExceeded] and leaves the
    producer, hence the queue and its length, as they were; a record at or
    under the limit is never answered with an error: when [Put] returns, it
    returns no error and the queue has grown by exactly that one record, and
    it does return as soon as the open queue has room. *)
Theorem Put_size_invariant (p : Producer) (data : list byte) (partitionKey : string) :
  (len data + strlen partitionKey + len (Separator (config p)) > maxRecordSize ->
     Put p data partitionKey = PutReturns (Some ErrRecordSizeExceeded) p) /\
  (len data + strlen partitionKey + len (Separator (config p)) <= maxRecordSize ->
     (forall err p', Put p data partitionKey = PutReturns err p' ->
        err = None /\
        queue (records p') = queue (records p) ++ [put_entry p data partitionKey] /\
        len (queue (records p')) = len (queue (records p)) + 1) /\
     (closed (records p) = false -> len (queue (records p)) < capacity (records p) ->
        exists p', Put p data partitionKey = PutReturns None p')).
Proof.
  split.
  - apply Put_rejects.
  - intros Hfit. split.
    + intros err p' Hput.
      destruct (Put_returns_inv _ _ _ _ _ Hput) as [(_ & _ & Hbig) | (-> & _ & _ & Hq & _)]; [lia |].
      rewrite Hq, len_app. repeat split. 
    + intros Hopen Hroom. eexists. apply Put_accepts; assumption.
Qed.

Lemma Put_size_invariant_witness :
  Put demo_producer (replicate (Z.to_nat 1048576) "000"%byte) "k"
    = PutReturns (Some ErrRecordSizeExceeded) demo_producer /\
  exists p', Put demo_producer ["a"%byte] "k" = PutReturns None p'.
Proof.
  split.
  - apply (proj1 (Put_size_invariant demo_producer (replicate (Z.to_nat 1048576) "000"%byte) "k")).
    rewrite len_replicate by lia. reflexivity.
  - apply (proj2 (Put_size_invariant demo_producer ["a"%byte] "k")).
    + discriminate.
    + reflexivity.
    + reflexivity.
Defined.

(** C9: the size check of [Put] is strict.  A record whose data, partition
    key and separator add up to exactly [maxRecordSize] (1 MiB) is accepted
    and queued with the payload [data ++ separator]; an error is returned
    only when the total strictly exceeds [maxRecordSize]. *)
Theorem Put_boundary (p : Producer) (data : list byte) (partitionKey : string) :
  maxRecordSize = 1048576 /\
  (len data + strlen partitionKey + len (Separator (config p)) = maxRecordSize ->
   closed (records p) = false ->
   len (queue (records p)) < capacity (records p) ->
   Put p data partitionKey
   = PutReturns None
       (mkProducer (config p)
          (mkChan (queue (records p) ++ [mkEntry (data ++ Separator (config p)) partitionKey])
             (capacity (records p)) false))) /\
  (forall e p', Put p data partitionKey = PutReturns (Some e) p' ->
     e = ErrRecordSizeExceeded /\
     len data + strlen partitionKey + len (Separator (config p)) > maxRecordSize).
Proof.
  split; [reflexivity | split].
  - intros Heq Hopen Hroom. apply Put_accepts; [lia | assumption..].
  - intros e p' Hput.
    destruct (Put_returns_inv _ _ _ _ _ Hput) as [(He & _ & Hbig) | (He & _)]; [| discriminate].
    split; [congruence | assumption].
Qed.

Lemma Put_boundary_witness :
  Put demo_producer (replicate (Z.to_nat 1048574) "000"%byte) "k"
  = PutReturns None
      (mkProducer demo_config
         (mkChan [mkEntry (replicate (Z.to_nat 1048574) "000"%byte ++ ["010"%byte]) "k"] 10 false)).
Proof.
  apply (proj1 (proj2 (Put_boundary demo_producer (replicate (Z.to_nat 1048574) "000"%byte) "k"))).
  - rewrite len_replicate by lia. reflexivity.
  - reflexivity.
  - reflexivity.
Defined.

(** ** [failures] *)

Lemma rejected_nil_r (records : list Entry) : rejected records [] = [].
Proof. unfold rejected. destruct records; reflexivity. Qed.

Lemma rejected_cons (x : Entry) (records : list Entry)
    (r : PutRecordsResultEntry) (response : list PutRecordsResultEntry) :
  rejected (x :: records) (r :: response)
  = if hasError r then x :: rejected records response else rejected records response.
Proof.
  unfold rejected. simpl. rewrite filter_cons. simpl.
  destruct (hasError r); simpl; reflexivity.
Qed.

(** With every paired index in range the loop returns the rejected records
    behind what it had accumulated. *)
Lemma failures_range_in_bounds (records : list Entry) (response : list PutRecordsResultEntry) :
  forall (i : nat) (out : list Entry),
    (i + length response <= length records)%nat ->
    failures_range records i response out
    = Ret (out ++ rejected (drop i records) response).
Proof.
  induction response as [| r rest IH]; intros i out Hlen; simpl in *.
  - rewrite rejected_nil_r, app_nil_r. reflexivity.
  - destruct (lookup_lt_is_Some_2 records i) as [x Hx]; [lia |].
    rewrite (drop_S _ _ _ Hx), rejected_cons, Hx.
    destruct (hasError r).
    + rewrite IH by lia. rewrite <- app_assoc. reflexivity.
    + apply IH. lia.
Qed.

Lemma failures_in_bounds (records : list Entry) (response : list PutRecordsResultEntry) :
  (length response <= length records)%nat ->
  failures records response = Ret (rejected records response).
Proof.
  intros Hlen. unfold failures.
  rewrite failures_range_in_bounds by (simpl; lia). reflexivity.
Qed.

(** The indices the loop reads are exactly the positions of the entries
    with an error code. *)
Lemma elem_of_accessed_from (response : list PutRecordsResultEntry) :
  forall (i k : nat),
    k ∈ accessed_from i response <->
    exists j r, k = (i + j)%nat /\ response !! j = Some r /\ hasError r = true.
Proof.
  induction response as [| r0 rest IH]; intros i k; simpl.
  - split; [intros Hin; inversion Hin | intros (j & r & _ & Hj & _); discriminate].
  - destruct (hasError r0) eqn:Hr0.
    + rewrite elem_of_cons, IH. split.
      * intros [-> | (j & r & -> & Hj & Hr)].
        -- exists 0%nat, r0. repeat split; [lia | assumption].
        -- exists (S j), r. repeat split; [lia | assumption..].
      * intros (j & r & -> & Hj & Hr). destruct j as [| j].
        -- left. lia.
        -- right. exists j, r. repeat split; [lia | assumption..].
    + rewrite IH. split.
      * intros (j & r & -> & Hj & Hr). exists (S j), r. repeat split; [lia | assumption..].
      * intros (j & r & -> & Hj & Hr). destruct j as [| j].
        -- simpl in Hj. congruence.
        -- exists j, r. repeat split; [lia | assumption..].
Qed.

(** [failures] panics exactly when one of the indices it reads is out of
    range, and it never runs out of fuel. *)
Lemma failures_range_outcome (records : list Entry) (response : list PutRecordsResultEntry) :
  forall (i : nat) (out : list Entry),
    (Forall (fun k => (k < length records)%nat) (accessed_from i response) /\
     exists res, failures_range records i response out = Ret res)
    \/
    (Exists (fun k => (length records <= k)%nat) (accessed_from i response) /\
     failures_range records i response out = Panic "index out of range").
Proof.
  induction response as [| r rest IH]; intros i out; simpl.
  - left. split; [constructor | eauto].
  - destruct (hasError r).
    + destruct (records !! i) as [x |] eqn:Hx.
      * destruct (IH (S i) (out ++ [x])) as [[Hall Hret] | [Hex Hpanic]].
        -- left. split; [| assumption]. constructor; [| assumption].
           apply lookup_lt_Some in Hx. assumption.
        -- right. split; [| assumption]. apply Exists_cons_tl. assumption.
      * right. split; [| reflexivity]. apply Exists_cons_hd.
        apply lookup_ge_None in Hx. assumption.
    + apply IH.
Qed.

Lemma failures_panics_iff (records : list Entry) (response : list PutRecordsResultEntry) :
  failures records response = Panic "index out of range" <->
  exists i r, response !! i = Some r /\ hasError r = true /\ (length records <= i)%nat.
Proof.
  unfold failures.
  destruct (failures_range_outcome records response 0 []) as [[Hall [res Hret]] | [Hex Hpanic]].
  - rewrite Hret. split; [discriminate |].
    intros (i & r & Hi & Hr & Hge). exfalso.
    rewrite Forall_forall in Hall.
    assert (Hin : i ∈ accessed_from 0 response).
    { apply elem_of_accessed_from. exists i, r. repeat split; assumption. }
    apply Hall in Hin. lia.
  - split; [intros _ | intros _; assumption].
    apply Exists_exists in Hex. destruct Hex as (k & Hin & Hge).
    apply elem_of_accessed_from in Hin. destruct Hin as (j & r & -> & Hj & Hr).
    exists j, r. repeat split; [assumption.. | lia].
Qed.

(** C10: [failures] pairs result entries with submitted records by
    position.  When the response has at most as many entries as there are
    records, every index [i] at which it reads [records[i]] is in bounds and
    it returns the rejected records.  When the response is longer, the
    record paired with every entry past the end of [records] is out of
    bounds, and reading it (which happens when that entry carries an error
    code) makes [failures] panic; so the flusher is safe as long as the
    submission capability returns at most one entry per submitted record. *)
Theorem failures_index_safety (records : list Entry) (response : list PutRecordsResultEntry) :
  ((length response <= length records)%nat ->
     Forall (fun i => is_Some (records !! i)) (accessed response) /\
     failures records response = Ret (rejected records response)) /\
  ((length records < length response)%nat ->
     forall i r, (length records <= i)%nat -> response !! i = Some r ->
       records !! i = None /\
       (hasError r = true -> i ∈ accessed response /\
          failures records response = Panic "index out of range")).
Proof.
  split.
  - intros Hlen. split; [| apply failures_in_bounds; assumption].
    apply Forall_forall. intros k Hin.
    apply elem_of_accessed_from in Hin. destruct Hin as (j & r & -> & Hj & _).
    apply lookup_lt_is_Some_2. apply lookup_lt_Some in Hj. lia.
  - intros _ i r Hge Hi. split; [apply lookup_ge_None_2; assumption |].
    intros Hr. split.
    + apply elem_of_accessed_from. exists i, r. repeat split; assumption.
    + apply failures_panics_iff. exists i, r. repeat split; assumption.
Qed.

Lemma failures_index_safety_witness :
  failures [mkEntry ["a"%byte] "k"] [mkResult (Some "InternalFailure"%string) (Some "oops"%string)]
    = Ret [mkEntry ["a"%byte] "k"] /\
  ([mkEntry ["a"%byte] "k"] : list Entry) !! 1%nat = None /\
  failures [mkEntry ["a"%byte] "k"]
    [mkResult None None; mkResult (Some "InternalFailure"%string) (Some "oops"%string)]
    = Panic "index out of range".
Proof.
  split; [| split].
  - apply (proj1 (failures_index_safety [mkEntry ["a"%byte] "k"]
                    [mkResult (Some "InternalFailure"%string) (Some "oops"%string)])).
    simpl. lia.
  - apply (proj2 (failures_index_safety [mkEntry ["a"%byte] "k"]
                    [mkResult None None; mkResult (Some "InternalFailure"%string) (Some "oops"%string)]))
      with (r := mkResult (Some "InternalFailure"%string) (Some "oops"%string));
      [simpl; lia | simpl; lia | reflexivity].
  - apply (proj2 (failures_index_safety [mkEntry ["a"%byte] "k"]
                    [mkResult None None; mkResult (Some "InternalFailure"%string) (Some "oops"%string)]))
      with (i := 1%nat) (r := mkResult (Some "InternalFailure"%string) (Some "oops"%string));
      [simpl; lia | simpl; lia | reflexivity | reflexivity].
Defined.

(** ** The rejected records *)

Lemma rejected_nil_l (response : list PutRecordsResultEntry) : rejected [] response = [].
Proof. reflexivity. Qed.

Lemma filter_hasError_cons (r : PutRecordsResultEntry) (response : list PutRecordsResultEntry) :
  filter hasError (r :: response)
  = if hasError r then r :: filter hasError response else filter hasError response.
Proof. rewrite filter_cons. destruct (hasError r); reflexivity. Qed.

(** One rejected record per entry with an error code. *)
Lemma rejected_length (response : list PutRecordsResultEntry) :
  forall records : list Entry,
    (length response <= length records)%nat ->
    length (rejected records response) = length (filter hasError response).
Proof.
  induction response as [| r rest IH]; intros records Hlen.
  - rewrite rejected_nil_r. reflexivity.
  - destruct records as [| x records]; simpl in Hlen; [lia |].
    rewrite rejected_cons, filter_hasError_cons.
    destruct (hasError r); simpl; rewrite IH by lia; reflexivity.
Qed.

(** The rejected records keep the order they had in the batch. *)
Lemma rejected_sublist (records : list Entry) :
  forall response : list PutRecordsResultEntry,
    rejected records response `sublist_of` records.
Proof.
  induction records as [| x records IH]; intros response.
  - rewrite rejected_nil_l. constructor.
  - destruct response as [| r rest].
    + rewrite rejected_nil_r. apply sublist_nil_l.
    + rewrite rejected_cons. destruct (hasError r).
      * apply sublist_skip, IH.
      * apply sublist_cons, IH.
Qed.

(** They are the records at the positions of the entries with an error
    code, no other. *)
Lemma elem_of_rejected (records : list Entry) :
  forall (response : list PutRecordsResultEntry) (x : Entry),
    x ∈ rejected records response <->
    exists i e, records !! i = Some x /\ response !! i = Some e /\ hasError e = true.
Proof.
  induction records as [| y records IH]; intros response x.
  - rewrite rejected_nil_l. split; [intros Hin; inversion Hin |].
    intros (i & e & Hi & _). rewrite lookup_nil in Hi. discriminate.
  - destruct response as [| r rest].
    + rewrite rejected_nil_r. split; [intros Hin; inversion Hin |].
      intros (i & e & _ & Hi & _). rewrite lookup_nil in Hi. discriminate.
    + rewrite rejected_cons. destruct (hasError r) eqn:Hr.
      * rewrite elem_of_cons, IH. split.
        -- intros [-> | (i & e & Hi & He & Herr)].
           ++ exists 0%nat, r. repeat split; assumption.
           ++ exists (S i), e. repeat split; assumption.
        -- intros (i & e & Hi & He & Herr). destruct i as [| i]; simpl in *.
           ++ left. congruence.
           ++ right. exists i, e. repeat split; assumption.
      * rewrite IH. split.
        -- intros (i & e & Hi & He & Herr). exists (S i), e. repeat split; assumption.
        -- intros (i & e & Hi & He & Herr). destruct i as [| i]; simpl in *.
           ++ congruence.
           ++ exists i, e. repeat split; assumption.
Qed.

(** ** Reading traces *)

Lemma submissions_app (t u : list Event) :
  submissions (t ++ u) = submissions t ++ submissions u.
Proof. apply omap_app. Qed.

Lemma sleeps_app (t u : list Event) : sleeps (t ++ u) = sleeps t ++ sleeps u.
Proof. apply omap_app. Qed.

Lemma loop_flushes_app (t u : list Event) :
  loop_flushes (t ++ u) = loop_flushes t ++ loop_flushes u.
Proof. apply omap_app. Qed.

Lemma resets_app (t u : list Event) : resets (t ++ u) = (resets t + resets u)%nat.
Proof. unfold resets. rewrite filter_app, length_app. reflexivity. Qed.

Lemma resets_cons (e : Event) (t : list Event) :
  resets (e :: t) = ((if isReset e then 1 else 0) + resets t)%nat.
Proof.
  unfold resets. rewrite filter_cons. destruct (isReset e); simpl; reflexivity.
Qed.

Lemma resets_nil : resets [] = 0%nat.
Proof. reflexivity. Qed.

Lemma logs_silent (logs : list Event) :
  Forall (fun e => isLog e = true) logs ->
  submissions logs = [] /\ sleeps logs = [] /\ loop_flushes logs = [] /\ resets logs = 0%nat.
Proof.
  induction 1 as [| e logs He _ (IH1 & IH2 & IH3 & IH4)]; [repeat split |].
  destruct e; try discriminate He. repeat split; assumption.
Qed.

Lemma rejection_logs_are_logs (rs : list PutRecordsResultEntry) :
  Forall (fun e => isLog e = true) (rejection_logs rs).
Proof.
  unfold rejection_logs. induction rs as [| r rs IH]; simpl; [constructor |].
  destruct (ErrorCode r), (ErrorMessage r); simpl; try assumption.
  constructor; [reflexivity | assumption].
Qed.

(** ** The flusher *)

Section FlusherProperties.

Context {C B : Type} `{KinesisAPI C} `{BackoffPolicy B}.

Implicit Types (w : World C B) (records : list Entry) (reason : string) (p : Config).

Lemma backoff_run (failed : Z) w :
  backoff failed w
  = (Ret tt,
     mkWorld (client w) (Duration (policy w)).2
       (trace w ++ backoff_events failed (Duration (policy w)).1)).
Proof.
  unfold backoff, bind, Backoff_Duration, time_Sleep, emit, backoff_events.
  destruct (Duration (policy w)) as [d b]. simpl.
  rewrite <- !app_assoc. reflexivity.
Qed.

(** The logging loop only logs, and panics on a rejected entry without a
    message. *)
Lemma log_rejected_trace (rs : list PutRecordsResultEntry) w :
  exists o evs,
    log_rejected rs w = (o, mkWorld (client w) (policy w) (trace w ++ evs)) /\
    o <> OutOfFuel /\
    Forall (fun e => isLog e = true) evs.
Proof.
  revert w. induction rs as [| r rest IH]; intros w; simpl.
  - exists (Ret tt), []. rewrite app_nil_r. destruct w.
    repeat split; [discriminate | constructor].
  - destruct (ErrorCode r) as [code |]; [| apply IH].
    destruct (ErrorMessage r) as [msg |].
    + unfold bind, emit.
      match goal with |- context [log_rejected rest ?w1] =>
        destruct (IH w1) as (o & evs & Hrun & Hfuel & Hlogs) end.
      simpl in Hrun. rewrite Hrun, <- app_assoc.
      exists o, (EvLog ErrorLevel "push record"
                   [("code"%string, FString code); ("message"%string, FString msg)] :: evs).
      destruct o; (split; [reflexivity | split; [assumption | constructor; [reflexivity | assumption]]]).
    + exists (Panic "nil pointer dereference"), []. rewrite app_nil_r. destruct w.
      repeat split; [discriminate | constructor].
Qed.

Lemma log_rejected_ok (rs : list PutRecordsResultEntry) w :
  Forall (fun r => hasError r = true -> is_Some (ErrorMessage r)) rs ->
  log_rejected rs w
  = (Ret tt, mkWorld (client w) (policy w) (trace w ++ rejection_logs rs)).
Proof.
  revert w. induction rs as [| r rest IH]; intros w Hall; simpl.
  - unfold rejection_logs. simpl. rewrite app_nil_r. destruct w. reflexivity.
  - inversion Hall as [| ? ? Hr Hrest]; subst.
    unfold rejection_logs, hasError in *. simpl.
    destruct (ErrorCode r) as [code |]; [| apply IH; assumption].
    destruct (Hr eq_refl) as [msg Hmsg]. rewrite Hmsg.
    unfold bind, emit. rewrite IH by assumption. simpl.
    rewrite <- app_assoc. reflexivity.
Qed.

(** One submission of [flush], case by case. *)
Lemma flush_unfold (fuel : nat) p records reason w :
  flush (S fuel) p records reason w
  = let t := trace w ++ [EvFlush records reason; EvPutRecords (StreamName p) records] in
    match PutRecords (client w) (StreamName p) records with
    | (inr err, c) =>
        flush fuel p records "error"
          (mkWorld c (Duration (policy w)).2
             (t ++ EvLog ErrorLevel "flush" [("error"%string, FError err)]
                :: backoff_events (len records) (Duration (policy w)).1))
    | (inl out, c) =>
        match FailedRecordCount out with
        | None => (Panic "nil pointer dereference", mkWorld c (policy w) t)
        | Some failed =>
            if failed =? 0
            then (Ret tt, mkWorld c (Reset (policy w)) (t ++ [EvReset]))
            else
              match log_rejected (Records out) (mkWorld c (policy w) t) with
              | (Ret _, w') =>
                  let w'' := mkWorld (client w') (Duration (policy w')).2
                               (trace w' ++ backoff_events failed (Duration (policy w')).1) in
                  match failures records (Records out) with
                  | Ret retry => flush fuel p retry "retry" w''
                  | Panic msg => (Panic msg, w'')
                  | OutOfFuel => (OutOfFuel, w'')
                  end
              | (Panic msg, w') => (Panic msg, w')
              | (OutOfFuel, w') => (OutOfFuel, w')
              end
        end
    end.
Proof.
  cbn [flush]. unfold bind at 1 2. unfold emit at 1. unfold Client_PutRecords. cbn [client policy trace].
  destruct (PutRecords (client w) (StreamName p) records) as [[out | err] c].
  - rewrite <- app_assoc. cbn [app].
    destruct (FailedRecordCount out) as [failed |]; [| reflexivity].
    destruct (failed =? 0).
    + unfold Backoff_Reset. cbn [client policy trace]. rewrite <- app_assoc. reflexivity.
    + unfold bind at 1.
      destruct (log_rejected (Records out) _) as [[[] | msg |] w']; [| reflexivity..].
      unfold bind at 1. rewrite backoff_run.
      unfold bind at 1, lift.
      destruct (failures records (Records out)); reflexivity.
  - rewrite <- app_assoc. cbn [app].
    unfold bind at 1, emit at 1. cbn [client policy trace].
    unfold bind at 1. rewrite backoff_run. cbn [client policy trace].
    rewrite <- !app_assoc. reflexivity.
Qed.

(** The three ways a submission ends, as rewriting rules. *)

Lemma flush_transport_round (fuel : nat) p records reason w (err : error) (c : C) :
  PutRecords (client w) (StreamName p) records = (inr err, c) ->
  flush (S fuel) p records reason w
  = flush fuel p records "error"
      (mkWorld c (Duration (policy w)).2
         (trace w ++ [EvFlush records reason; EvPutRecords (StreamName p) records]
            ++ EvLog ErrorLevel "flush" [("error"%string, FError err)]
            :: backoff_events (len records) (Duration (policy w)).1)).
Proof.
  intros Hcall. rewrite flush_unfold, Hcall. cbv zeta.
  rewrite <- app_assoc. reflexivity.
Qed.

Lemma flush_success (fuel : nat) p records reason w (out : PutRecordsOutput) (c : C) :
  PutRecords (client w) (StreamName p) records = (inl out, c) ->
  FailedRecordCount out = Some 0 ->
  flush (S fuel) p records reason w
  = (Ret tt,
     mkWorld c (Reset (policy w))
       (trace w ++ [EvFlush records reason; EvPutRecords (StreamName p) records; EvReset])).
Proof.
  intros Hcall Hcount. rewrite flush_unfold, Hcall, Hcount. cbv zeta. simpl.
  rewrite <- app_assoc. reflexivity.
Qed.

Lemma flush_partial_round (fuel : nat) p records reason w
    (out : PutRecordsOutput) (c : C) (failed : Z) :
  PutRecords (client w) (StreamName p) records = (inl out, c) ->
  FailedRecordCount out = Some failed ->
  failed <> 0 ->
  Forall (fun r => hasError r = true -> is_Some (ErrorMessage r)) (Records out) ->
  (length (Records out) <= length records)%nat ->
  flush (S fuel) p records reason w
  = flush fuel p (rejected records (Records out)) "retry"
      (mkWorld c (Duration (policy w)).2
         (trace w ++ [EvFlush records reason; EvPutRecords (StreamName p) records]
            ++ rejection_logs (Records out)
            ++ backoff_events failed (Duration (policy w)).1)).
Proof.
  intros Hcall Hcount Hfailed Hmsgs Hlen.
  rewrite flush_unfold, Hcall, Hcount. cbv zeta.
  destruct (Z.eqb_spec failed 0) as [| _]; [contradiction |].
  rewrite log_rejected_ok by assumption. cbn [client policy trace].
  rewrite failures_in_bounds by assumption.
  rewrite <- !app_assoc. reflexivity.
Qed.

(** Induction along the calls of [flush]: one case per way a submission
    can end. *)
Lemma flush_induction (p : Config)
    (P : nat -> list Entry -> string -> World C B -> outcome unit * World C B -> Prop) :
  (forall records reason w, P O records reason w (OutOfFuel, w)) ->
  (forall fuel records reason w err c,
      PutRecords (client w) (StreamName p) records = (inr err, c) ->
      let w' := mkWorld c (Duration (policy w)).2
                  (trace w ++ [EvFlush records reason; EvPutRecords (StreamName p) records]
                     ++ EvLog ErrorLevel "flush" [("error"%string, FError err)]
                     :: backoff_events (len records) (Duration (policy w)).1) in
      P fuel records "error"%string w' (flush fuel p records "error" w') ->
      P (S fuel) records reason w (flush fuel p records "error" w')) ->
  (forall fuel records reason w out c,
      PutRecords (client w) (StreamName p) records = (inl out, c) ->
      FailedRecordCount out = None ->
      P (S fuel) records reason w
        (Panic "nil pointer dereference",
         mkWorld c (policy w)
           (trace w ++ [EvFlush records reason; EvPutRecords (StreamName p) records]))) ->
  (forall fuel records reason w out c,
      PutRecords (client w) (StreamName p) records = (inl out, c) ->
      FailedRecordCount out = Some 0 ->
      P (S fuel) records reason w
        (Ret tt,
         mkWorld c (Reset (policy w))
           (trace w ++ [EvFlush records reason; EvPutRecords (StreamName p) records; EvReset]))) ->
  (forall fuel records reason w out c failed logs msg,
      PutRecords (client w) (StreamName p) records = (inl out, c) ->
      FailedRecordCount out = Some failed ->
      failed <> 0 ->
      Forall (fun e => isLog e = true) logs ->
      P (S fuel) records reason w
        (Panic msg,
         mkWorld c (policy w)
           (trace w ++ [EvFlush records reason; EvPutRecords (StreamName p) records] ++ logs))) ->
  (forall fuel records reason w out c failed logs msg,
      PutRecords (client w) (StreamName p) records = (inl out, c) ->
      FailedRecordCount out = Some failed ->
      failed <> 0 ->
      Forall (fun e => isLog e = true) logs ->
      failures records (Records out) = Panic msg ->
      P (S fuel) records reason w
        (Panic msg,
         mkWorld c (Duration (policy w)).2
           (trace w ++ [EvFlush records reason; EvPutRecords (StreamName p) records]
              ++ logs ++ backoff_events failed (Duration (policy w)).1))) ->
  (forall fuel records reason w out c failed logs retry,
      PutRecords (client w) (StreamName p) records = (inl out, c) ->
      FailedRecordCount out = Some failed ->
      failed <> 0 ->
      Forall (fun e => isLog e = true) logs ->
      failures records (Records out) = Ret retry ->
      let w' := mkWorld c (Duration (policy w)).2
                  (trace w ++ [EvFlush records reason; EvPutRecords (StreamName p) records]
                     ++ logs ++ backoff_events failed (Duration (policy w)).1) in
      P fuel retry "retry"%string w' (flush fuel p retry "retry" w') ->
      P (S fuel) records reason w (flush fuel p retry "retry" w')) ->
  forall fuel records reason w, P fuel records reason w (flush fuel p records reason w).
Proof.
  intros Hzero Herr Hnil Hok Hlogpanic Hidxpanic Hretry.
  induction fuel as [| fuel IH]; intros records reason w; [apply Hzero |].
  rewrite flush_unfold. cbv zeta.
  destruct (PutRecords (client w) (StreamName p) records) as [[out | err] c] eqn:Hcall.
  - destruct (FailedRecordCount out) as [failed |] eqn:Hcount; [| eapply Hnil; eassumption].
    destruct (Z.eqb_spec failed 0) as [-> | Hfailed].
    { rewrite <- app_assoc. eapply Hok; eassumption. }
    destruct (log_rejected_trace (Records out)
                (mkWorld c (policy w)
                   (trace w ++ [EvFlush records reason; EvPutRecords (StreamName p) records])))
      as (o & logs & -> & Hfuel & Hlogs).
    cbn [client policy trace]. rewrite <- !app_assoc.
    destruct o as [[] | msg |]; [| eapply Hlogpanic; eassumption | congruence].
    destruct (failures records (Records out)) as [retry | msg |] eqn:Hfail.
    + eapply Hretry; try eassumption. apply IH.
    + eapply Hidxpanic; eassumption.
    + exfalso. unfold failures in Hfail.
      destruct (failures_range_outcome records (Records out) 0 []) as [[_ [res Hres]] | [_ Hres]];
        congruence.
  - rewrite <- app_assoc. eapply Herr; [eassumption |]. apply IH.
Qed.

(** Readers over the events of one round. *)
Ltac read_round Hlogs :=
  cbn [fst snd client policy trace];
  repeat first [rewrite resets_app | rewrite submissions_app | rewrite sleeps_app
               | rewrite loop_flushes_app];
  try (let Hs := fresh "Hs" in
       pose proof (logs_silent _ Hlogs) as Hs;
       destruct Hs as (Hs1 & Hs2 & Hs3 & Hs4);
       rewrite ?Hs1, ?Hs2, ?Hs3, ?Hs4; clear Hs1 Hs2 Hs3 Hs4);
  unfold backoff_events;
  rewrite ?resets_cons, ?resets_nil;
  cbn [fst snd client policy trace isReset].

(** [flush] only ever adds to the trace. *)
Lemma flush_trace_extends (fuel : nat) p records reason w :
  exists evs, trace (flush fuel p records reason w).2 = trace w ++ evs.
Proof.
  apply (flush_induction p
           (fun _ _ _ w r => exists evs, trace r.2 = trace w ++ evs)).
  - intros. exists []. rewrite app_nil_r. reflexivity.
  - intros ? ? ? ? ? ? _ w' [evs ->]. subst w'. cbn [trace].
    rewrite <- app_assoc. eauto.
  - intros. simpl. eauto.
  - intros. simpl. eauto.
  - intros. simpl. eauto.
  - intros. simpl. eauto.
  - intros ? ? ? ? ? ? ? ? ? _ _ _ _ _ w' [evs ->]. subst w'. cbn [trace].
    rewrite <- app_assoc. eauto.
Qed.

(** A call of [flush] that gets to run starts by submitting the records it
    was given. *)
Lemma flush_first_submission (fuel : nat) p records reason w :
  exists evs,
    trace (flush (S fuel) p records reason w).2
    = trace w ++ [EvFlush records reason; EvPutRecords (StreamName p) records] ++ evs.
Proof.
  rewrite flush_unfold. cbv zeta.
  destruct (PutRecords (client w) (StreamName p) records) as [[out | err] c].
  - destruct (FailedRecordCount out) as [failed |]; [| exists []; reflexivity].
    destruct (failed =? 0).
    { exists [EvReset]. simpl. rewrite <- app_assoc. reflexivity. }
    destruct (log_rejected_trace (Records out)
                (mkWorld c (policy w)
                   (trace w ++ [EvFlush records reason; EvPutRecords (StreamName p) records])))
      as (o & logs & -> & _ & _).
    cbn [client policy trace].
    destruct o as [[] | msg |]; [| rewrite <- app_assoc; eauto..].
    destruct (failures records (Records out)) as [retry | msg |].
    + match goal with |- context [flush fuel p retry ?r ?w'] =>
        destruct (flush_trace_extends fuel p retry r w') as [evs ->] end.
      cbn [trace]. rewrite <- !app_assoc. eauto.
    + cbn [snd trace]. rewrite <- !app_assoc. eauto.
    + cbn [snd trace]. rewrite <- !app_assoc. eauto.
  - match goal with |- context [flush fuel p records ?r ?w'] =>
      destruct (flush_trace_extends fuel p records r w') as [evs ->] end.
    cbn [trace]. rewrite <- !app_assoc. eauto.
Qed.

(** [Reset] is called once by a call of [flush] that returns, and not at
    all by one that has not returned or that panicked. *)
Lemma flush_resets (fuel : nat) p records reason w :
  resets (trace (flush fuel p records reason w).2)
  = (resets (trace w)
     + match (flush fuel p records reason w).1 with Ret _ => 1 | _ => 0 end)%nat.
Proof.
  apply (flush_induction p
           (fun _ _ _ w r =>
              resets (trace r.2)
              = (resets (trace w) + match r.1 with Ret _ => 1 | _ => 0 end)%nat)).
  - intros. simpl. lia.
  - intros ? ? ? ? ? ? _ w' ->. subst w'. read_round I. simpl. lia.
  - intros. read_round I. simpl. lia.
  - intros. read_round I. simpl. lia.
  - intros ? ? ? ? ? ? ? ? ? _ _ _ Hlogs. read_round Hlogs. simpl. lia.
  - intros ? ? ? ? ? ? ? ? ? _ _ _ Hlogs _. read_round Hlogs. simpl. lia.
  - intros ? ? ? ? ? ? ? ? ? _ _ _ Hlogs _ w' ->. subst w'. read_round Hlogs. simpl. lia.
Qed.

(** Of the calls of [flush], only the outermost one counts as issued by
    [loop]: the retries carry the reasons "error" and "retry". *)
Lemma flush_loop_flushes (fuel : nat) p records reason w :
  loop_flushes (trace (flush fuel p records reason w).2)
  = loop_flushes (trace w)
    ++ match fuel with
       | O => []
       | S _ => if issued_by_loop reason then [records] else []
       end.
Proof.
  apply (flush_induction p
           (fun fuel records reason w r =>
              loop_flushes (trace r.2)
              = loop_flushes (trace w)
                ++ match fuel with
                   | O => []
                   | S _ => if issued_by_loop reason then [records] else []
                   end)).
  - intros. simpl. rewrite app_nil_r. reflexivity.
  - intros fuel' ? reason' ? ? ? _ w' ->. subst w'. read_round I.
    destruct fuel'; simpl; rewrite !app_nil_r; destruct (issued_by_loop reason'); reflexivity.
  - intros ? ? reason' **. read_round I. simpl. destruct (issued_by_loop reason'); reflexivity.
  - intros ? ? reason' **. read_round I. simpl. destruct (issued_by_loop reason'); reflexivity.
  - intros ? ? reason' ? ? ? ? ? ? _ _ _ Hlogs. read_round Hlogs. simpl.
    destruct (issued_by_loop reason'); rewrite ?app_nil_r; reflexivity.
  - intros ? ? reason' ? ? ? ? ? ? _ _ _ Hlogs _. read_round Hlogs. simpl.
    destruct (issued_by_loop reason'); rewrite ?app_nil_r; reflexivity.
  - intros fuel' ? reason' ? ? ? ? ? ? _ _ _ Hlogs _ w' ->. subst w'. read_round Hlogs.
    destruct fuel'; simpl; rewrite ?app_nil_r; destruct (issued_by_loop reason'); reflexivity.
Qed.

(** ** Transport errors *)

Lemma submissions_error_rounds p records reason (errs : list error) (b : B) :
  submissions (error_rounds p records reason errs b) = replicate (length errs) records.
Proof.
  revert reason b. induction errs as [| err errs IH]; intros reason b; [reflexivity |].
  simpl. f_equal. apply IH.
Qed.

Lemma sleeps_error_rounds p records reason (errs : list error) (b : B) :
  sleeps (error_rounds p records reason errs b) = waits (length errs) b.
Proof.
  revert reason b. induction errs as [| err errs IH]; intros reason b; [reflexivity |].
  simpl. f_equal. apply IH.
Qed.

Lemma resets_error_rounds p records reason (errs : list error) (b : B) :
  resets (error_rounds p records reason errs b) = 0%nat.
Proof.
  revert reason b. induction errs as [| err errs IH]; intros reason b; [reflexivity |].
  simpl. rewrite !resets_cons. simpl. apply IH.
Qed.

(** As long as the submissions end in transport errors, [flush] calls
    itself on the very same records. *)
Lemma flush_failing_rounds (errs : list error) :
  forall (fuel : nat) p records reason w,
    fails_with errs (client w) (StreamName p) records ->
    exists w',
      flush (length errs + fuel) p records reason w
      = flush fuel p records (match errs with [] => reason | _ => "error"%string end) w' /\
      fails_with [] (client w') (StreamName p) records /\
      policy w' = escalate (length errs) (policy w) /\
      trace w' = trace w ++ error_rounds p records reason errs (policy w).
Proof.
  induction errs as [| err errs IH]; intros fuel p records reason w Hfails.
  - exists w. simpl. rewrite app_nil_r. repeat split.
  - destruct Hfails as (c' & Hcall & Hrest).
    cbn [length Nat.add]. rewrite (flush_transport_round _ _ _ _ _ _ _ Hcall).
    match goal with |- context [flush _ p records "error" ?w1] =>
      destruct (IH fuel p records "error"%string w1 Hrest) as (w' & Hrun & _ & Hpol & Htrace) end.
    exists w'. cbn [client policy trace] in *.
    rewrite Hrun, Hpol, Htrace. repeat split.
    + destruct errs; reflexivity.
    + cbn [error_rounds]. rewrite <- !app_assoc. reflexivity.
Qed.

(** C5: when [PutRecords] ends in a transport-level error, [flush] waits
    one backoff duration and submits the whole batch again, unchanged.
    However many attempts [errs] have failed this way, [flush] has not
    given up (it has not returned, and its trace is exactly the failed
    rounds: every one submits [records] itself and sleeps once, for the
    duration the policy handed out), and the attempt that follows submits
    [records] again. *)
Theorem flush_retries_whole_batch (errs : list error) p records reason w :
  fails_with errs (client w) (StreamName p) records ->
  let rounds := error_rounds p records reason errs (policy w) in
  (flush (length errs) p records reason w).1 = OutOfFuel /\
  trace (flush (length errs) p records reason w).2 = trace w ++ rounds /\
  submissions rounds = replicate (length errs) records /\
  sleeps rounds = waits (length errs) (policy w) /\
  resets rounds = 0%nat /\
  forall fuel : nat, exists evs,
    trace (flush (length errs + S fuel) p records reason w).2
    = trace w ++ rounds
      ++ [EvFlush records (match errs with [] => reason | _ => "error"%string end);
          EvPutRecords (StreamName p) records]
      ++ evs.
Proof.
  intros Hfails rounds.
  destruct (flush_failing_rounds errs 0 p records reason w Hfails)
    as (w0 & Hrun0 & _ & _ & Htrace0).
  rewrite Nat.add_0_r in Hrun0. rewrite Hrun0. cbn [flush timeout fst snd].
  split; [reflexivity |]. split; [assumption |].
  split; [apply submissions_error_rounds |].
  split; [apply sleeps_error_rounds |].
  split; [apply resets_error_rounds |].
  intros fuel.
  destruct (flush_failing_rounds errs (S fuel) p records reason w Hfails)
    as (w' & Hrun & _ & _ & Htrace).
  rewrite Hrun.
  destruct (flush_first_submission fuel p records
              (match errs with [] => reason | _ => "error"%string end) w') as [evs Hevs].
  exists evs. rewrite Hevs, Htrace, <- app_assoc. reflexivity.
Qed.

(** ** Partial failures *)

(** C4: when a submission of [records] returns a structured result that
    reports [N] failures (one entry per record, [N] of them with an error
    code), [flush] logs the rejections, backs off, and the very next
    submission carries [rejected records (Records out)]: exactly the [N]
    records whose entries carry an error code, the same values, in the
    order they had in the batch. *)
Theorem flush_retry_narrowing (fuel : nat) p records reason w
    (out : PutRecordsOutput) (c : C) (N : Z) :
  PutRecords (client w) (StreamName p) records = (inl out, c) ->
  consistent records out ->
  FailedRecordCount out = Some N ->
  N <> 0 ->
  let retry := rejected records (Records out) in
  len retry = N /\
  retry `sublist_of` records /\
  (forall x, x ∈ retry <->
     exists i e, records !! i = Some x /\ Records out !! i = Some e /\ hasError e = true) /\
  exists evs,
    trace (flush (S (S fuel)) p records reason w).2
    = trace w
      ++ [EvFlush records reason; EvPutRecords (StreamName p) records]
      ++ rejection_logs (Records out)
      ++ backoff_events N (Duration (policy w)).1
      ++ [EvFlush retry "retry"; EvPutRecords (StreamName p) retry]
      ++ evs.
Proof.
  intros Hcall (Hlen & Hcount & Hmsgs) HN Hfailed retry.
  split.
  { unfold len, retry. rewrite rejected_length by lia.
    rewrite Hcount in HN. injection HN as <-. reflexivity. }
  split; [apply rejected_sublist |].
  split; [apply elem_of_rejected |].
  rewrite (flush_partial_round _ _ _ _ _ _ _ _ Hcall HN Hfailed Hmsgs) by lia.
  match goal with |- context [flush (S fuel) p _ "retry" ?w1] =>
    destruct (flush_first_submission fuel p retry "retry" w1) as [evs Hevs] end.
  exists evs. fold retry. rewrite Hevs. cbn [trace]. rewrite <- !app_assoc. reflexivity.
Qed.

(** C6, as the code has it: on a structured partial failure the duration
    slept before the retry is the one [Duration] of the backoff policy
    hands out at that moment; the number of failed records is written to
    the log and has no part in it. *)
Theorem backoff_duration_from_policy (fuel : nat) p records reason w
    (out : PutRecordsOutput) (c : C) (N : Z) :
  PutRecords (client w) (StreamName p) records = (inl out, c) ->
  consistent records out ->
  FailedRecordCount out = Some N ->
  N <> 0 ->
  exists w',
    flush (S fuel) p records reason w
    = flush fuel p (rejected records (Records out)) "retry" w' /\
    policy w' = (Duration (policy w)).2 /\
    sleeps (trace w') = sleeps (trace w) ++ [(Duration (policy w)).1] /\
    trace w'
    = trace w
      ++ [EvFlush records reason; EvPutRecords (StreamName p) records]
      ++ rejection_logs (Records out)
      ++ [EvDuration (Duration (policy w)).1;
          EvLog WarnLevel "put failures"
            [("failures"%string, FInt N); ("backoff"%string, FDuration (Duration (policy w)).1)];
          EvSleep (Duration (policy w)).1].
Proof.
  intros Hcall (Hlen & _ & Hmsgs) HN Hfailed.
  eexists. split.
  { apply (flush_partial_round _ _ _ _ _ _ _ _ Hcall HN Hfailed Hmsgs). lia. }
  cbn [client policy trace]. split; [reflexivity |]. split; [| reflexivity].
  rewrite !sleeps_app.
  destruct (logs_silent _ (rejection_logs_are_logs (Records out))) as (_ & -> & _).
  reflexivity.
Qed.

(** ** Resetting the backoff *)

(** [flush] returns only through [Reset]. *)
Lemma flush_returns_reset (fuel : nat) p records reason w :
  (flush fuel p records reason w).1 = Ret tt ->
  exists b evs,
    policy (flush fuel p records reason w).2 = Reset b /\
    trace (flush fuel p records reason w).2 = trace w ++ evs ++ [EvReset].
Proof.
  apply (flush_induction p
           (fun _ _ _ w r =>
              r.1 = Ret tt ->
              exists b evs, policy r.2 = Reset b /\ trace r.2 = trace w ++ evs ++ [EvReset])).
  - discriminate.
  - intros ? records' reason' w0 err ? _ w' IH Hret.
    destruct (IH Hret) as (b & evs & Hb & Ht).
    exists b.
    exists (([EvFlush records' reason'; EvPutRecords (StreamName p) records']
             ++ EvLog ErrorLevel "flush" [("error"%string, FError err)]
             :: backoff_events (len records') (Duration (policy w0)).1) ++ evs).
    split; [assumption |]. rewrite Ht. subst w'. cbn [trace].
    rewrite <- !app_assoc. reflexivity.
  - discriminate.
  - intros ? records' reason' w0 ? ? _ _ _. exists (policy w0).
    exists [EvFlush records' reason'; EvPutRecords (StreamName p) records'].
    split; reflexivity.
  - discriminate.
  - discriminate.
  - intros ? records' reason' w0 ? ? failed logs ? _ _ _ _ _ w' IH Hret.
    destruct (IH Hret) as (b & evs & Hb & Ht).
    exists b.
    exists (([EvFlush records' reason'; EvPutRecords (StreamName p) records']
             ++ logs ++ backoff_events failed (Duration (policy w0)).1) ++ evs).
    split; [assumption |]. rewrite Ht. subst w'. cbn [trace].
    rewrite <- !app_assoc. reflexivity.
Qed.

(** A failed submission is followed by a sleep of the duration the policy
    hands out in the state it is in. *)
Lemma flush_sleeps_after_failure (fuel : nat) p records reason w :
  fails_once (client w) (StreamName p) records ->
  exists rest,
    sleeps (trace (flush (S fuel) p records reason w).2)
    = sleeps (trace w) ++ (Duration (policy w)).1 :: rest.
Proof.
  unfold fails_once. rewrite flush_unfold. cbv zeta.
  destruct (PutRecords (client w) (StreamName p) records) as [[out | err] c]; cbn [fst].
  - intros (N & -> & HN & Hmsgs).
    destruct (Z.eqb_spec N 0) as [| _]; [contradiction |].
    rewrite log_rejected_ok by assumption. cbn [client policy trace].
    destruct (logs_silent _ (rejection_logs_are_logs (Records out))) as (_ & Hsilent & _).
    destruct (failures records (Records out)) as [retry | msg |].
    + match goal with |- context [flush fuel p retry ?r ?w'] =>
        destruct (flush_trace_extends fuel p retry r w') as [evs ->] end.
      cbn [trace]. rewrite !sleeps_app, Hsilent. simpl. rewrite <- !app_assoc. cbn [app]. eauto.
    + cbn [snd trace]. rewrite !sleeps_app, Hsilent. simpl. rewrite <- ?app_assoc. cbn [app]. eauto.
    + cbn [snd trace]. rewrite !sleeps_app, Hsilent. simpl. rewrite <- ?app_assoc. cbn [app]. eauto.
  - intros _.
    match goal with |- context [flush fuel p records ?r ?w'] =>
      destruct (flush_trace_extends fuel p records r w') as [evs ->] end.
    cbn [trace]. rewrite !sleeps_app. simpl. rewrite <- !app_assoc. cbn [app]. eauto.
Qed.

(** C7: a submission whose structured result reports zero failed records
    makes [flush] call [Reset] and return.  [Reset] is called exactly once
    by a call of [flush] that returns and not at all by one that is still
    retrying or that panicked, so no retry path resets the policy.  When
    [flush] has returned the policy is a freshly reset one, and the next
    failed submission is answered with a sleep of the baseline duration:
    the one [Duration] gives right after [Reset]. *)
Theorem flush_resets_backoff (fuel : nat) p records reason w :
  let r := flush fuel p records reason w in
  resets (trace r.2)
  = (resets (trace w) + match r.1 with Ret _ => 1 | _ => 0 end)%nat /\
  (forall out c,
      fuel <> O ->
      PutRecords (client w) (StreamName p) records = (inl out, c) ->
      FailedRecordCount out = Some 0 ->
      r = (Ret tt,
           mkWorld c (Reset (policy w))
             (trace w ++ [EvFlush records reason; EvPutRecords (StreamName p) records; EvReset]))) /\
  (r.1 = Ret tt ->
   exists b evs,
     policy r.2 = Reset b /\
     trace r.2 = trace w ++ evs ++ [EvReset] /\
     forall fuel' records' reason',
       fails_once (client r.2) (StreamName p) records' ->
       exists rest,
         sleeps (trace (flush (S fuel') p records' reason' r.2).2)
         = sleeps (trace r.2) ++ baseline b :: rest).
Proof.
  intros r. split; [apply flush_resets |]. split.
  - intros out c Hfuel Hcall Hcount. subst r.
    destruct fuel as [| fuel]; [contradiction |].
    apply flush_success with (out := out); assumption.
  - intros Hret. destruct (flush_returns_reset fuel p records reason w Hret) as (b & evs & Hb & Ht).
    exists b, evs. split; [assumption |]. split; [assumption |].
    intros fuel' records' reason' Hfails.
    destruct (flush_sleeps_after_failure fuel' p records' reason' r.2 Hfails) as [rest Hrest].
    exists rest. rewrite Hrest. subst r. rewrite Hb. reflexivity.
Qed.

(** ** Submissions are never empty *)

Lemma submissions_round (t : list Event) records reason (stream : string) (evs : list Event) :
  submissions evs = [] ->
  submissions (t ++ [EvFlush records reason; EvPutRecords stream records] ++ evs)
  = submissions t ++ [records].
Proof. intros Hevs. rewrite !submissions_app, Hevs. reflexivity. Qed.

(** With an honest client a flush of a non-empty batch only ever submits
    non-empty batches: the whole batch again after a transport error, and
    after a partial failure the rejected records, of which there is at
    least one. *)
Lemma flush_submissions_nonempty (I : C -> Prop) (fuel : nat) p records reason w :
  honest I ->
  I (client w) ->
  records <> [] ->
  Forall (fun rs => rs <> []) (submissions (trace w)) ->
  I (client (flush fuel p records reason w).2) /\
  Forall (fun rs => rs <> []) (submissions (trace (flush fuel p records reason w).2)).
Proof.
  intros Hhonest.
  apply (flush_induction p
           (fun _ records _ w r =>
              I (client w) ->
              records <> [] ->
              Forall (fun rs => rs <> []) (submissions (trace w)) ->
              I (client r.2) /\ Forall (fun rs => rs <> []) (submissions (trace r.2)))).
  - intros ? ? w0 HI _ Hall. split; assumption.
  - intros ? records' ? w0 err c Hcall w' IH HI Hne Hall.
    pose proof (Hhonest (client w0) (StreamName p) records' HI) as Hh. rewrite Hcall in Hh.
    apply IH; [assumption | assumption |]. subst w'. cbn [trace].
    rewrite submissions_round by reflexivity.
    apply Forall_app. split; [assumption | repeat constructor; assumption].
  - intros ? records' ? w0 out c Hcall _ HI Hne Hall.
    pose proof (Hhonest (client w0) (StreamName p) records' HI) as Hh. rewrite Hcall in Hh.
    cbn [snd client trace]. split; [apply Hh |].
    rewrite <- (app_nil_r [_; _]), submissions_round by reflexivity.
    apply Forall_app. split; [assumption | repeat constructor; assumption].
  - intros ? records' reason' w0 out c Hcall _ HI Hne Hall.
    pose proof (Hhonest (client w0) (StreamName p) records' HI) as Hh. rewrite Hcall in Hh.
    cbn [snd client trace]. split; [apply Hh |].
    change [EvFlush records' reason'; EvPutRecords (StreamName p) records'; EvReset]
      with ([EvFlush records' reason'; EvPutRecords (StreamName p) records'] ++ [EvReset]).
    rewrite submissions_round by reflexivity.
    apply Forall_app. split; [assumption | repeat constructor; assumption].
  - intros ? records' ? w0 out c failed logs msg Hcall _ _ Hlogs HI Hne Hall.
    pose proof (Hhonest (client w0) (StreamName p) records' HI) as Hh. rewrite Hcall in Hh.
    cbn [snd client trace]. split; [apply Hh |].
    rewrite submissions_round by (apply logs_silent; assumption).
    apply Forall_app. split; [assumption | repeat constructor; assumption].
  - intros ? records' ? w0 out c failed logs msg Hcall _ _ Hlogs _ HI Hne Hall.
    pose proof (Hhonest (client w0) (StreamName p) records' HI) as Hh. rewrite Hcall in Hh.
    cbn [snd client trace]. split; [apply Hh |].
    rewrite submissions_round.
    + apply Forall_app. split; [assumption | repeat constructor; assumption].
    + rewrite submissions_app. destruct (logs_silent _ Hlogs) as (-> & _). reflexivity.
  - intros ? records' ? w0 out c failed logs retry Hcall Hcount Hfailed Hlogs Hfail w' IH HI Hne Hall.
    pose proof (Hhonest (client w0) (StreamName p) records' HI) as Hh. rewrite Hcall in Hh.
    destruct Hh as [(Hlen & Hcons & _) HI'].
    apply IH; [assumption | |].
    + rewrite failures_in_bounds in Hfail by lia. injection Hfail as <-.
      rewrite Hcount in Hcons. injection Hcons as ->.
      intros Hnil. apply Hfailed. unfold len.
      rewrite <- (rejected_length (Records out) records') by lia.
      rewrite Hnil. reflexivity.
    + subst w'. cbn [trace]. rewrite submissions_round.
      * apply Forall_app. split; [assumption | repeat constructor; assumption].
      * rewrite submissions_app. destruct (logs_silent _ Hlogs) as (-> & _). reflexivity.
Qed.

End FlusherProperties.

(** ** The flusher on concrete runs *)

Lemma structured_consistent (f : nat -> bool) (records : list Entry) :
  consistent records (structured f records).
Proof.
  unfold consistent, structured. cbn [Records FailedRecordCount].
  split; [apply length_imap |]. split; [reflexivity |].
  apply Forall_forall. intros r Hin.
  apply elem_of_lookup_imap in Hin. destruct Hin as (i & x & -> & _).
  unfold verdict, hasError. destruct (f i); simpl; [eauto | discriminate].
Qed.

Lemma flush_retries_whole_batch_witness :
  (flush 2 demo_config demo_batch "interval"
     (demo_world [Fail (ErrOther "timeout"); Fail (ErrOther "timeout")] 0)).1 = OutOfFuel /\
  submissions
    (trace (flush 2 demo_config demo_batch "interval"
              (demo_world [Fail (ErrOther "timeout"); Fail (ErrOther "timeout")] 0)).2)
  = [demo_batch; demo_batch] /\
  sleeps
    (trace (flush 2 demo_config demo_batch "interval"
              (demo_world [Fail (ErrOther "timeout"); Fail (ErrOther "timeout")] 0)).2)
  = [100; 200].
Proof.
  destruct (flush_retries_whole_batch
              [ErrOther "timeout"; ErrOther "timeout"] demo_config demo_batch "interval"
              (demo_world [Fail (ErrOther "timeout"); Fail (ErrOther "timeout")] 0))
    as (Hout & Htrace & Hsub & Hsleep & _).
  { simpl. eexists. split; [reflexivity |]. eexists. split; [reflexivity | exact I]. }
  cbn [length] in *.
  split; [exact Hout |].
  rewrite Htrace, submissions_app, sleeps_app, Hsub, Hsleep.
  split; reflexivity.
Defined.

Lemma flush_retry_narrowing_witness :
  rejected demo_batch (Records (structured (Nat.eqb 1) demo_batch))
    = [mkEntry ["b"%byte] "k2"] /\
  exists evs,
    submissions
      (trace (flush 2 demo_config demo_batch "interval"
                (demo_world [Reject (Nat.eqb 1)] 0)).2)
    = [demo_batch; [mkEntry ["b"%byte] "k2"]] ++ evs.
Proof.
  destruct (flush_retry_narrowing 0 demo_config demo_batch "interval"
              (demo_world [Reject (Nat.eqb 1)] 0)
              (structured (Nat.eqb 1) demo_batch) [] 1)
    as (_ & _ & _ & evs & Htrace).
  - reflexivity.
  - apply structured_consistent.
  - reflexivity.
  - discriminate.
  - split; [reflexivity |].
    exists (submissions evs). rewrite Htrace, !submissions_app.
    destruct (logs_silent _ (rejection_logs_are_logs (Records (structured (Nat.eqb 1) demo_batch))))
      as (-> & _).
    reflexivity.
Defined.

Lemma backoff_duration_from_policy_witness :
  exists w',
    flush 1 demo_config demo_batch "interval" (demo_world [Reject (Nat.eqb 1)] 3)
    = flush 0 demo_config [mkEntry ["b"%byte] "k2"] "retry" w' /\
    sleeps (trace w') = [800].
Proof.
  destruct (backoff_duration_from_policy 0 demo_config demo_batch "interval"
              (demo_world [Reject (Nat.eqb 1)] 3)
              (structured (Nat.eqb 1) demo_batch) [] 1)
    as (w' & Hrun & _ & Hsleep & _).
  - reflexivity.
  - apply structured_consistent.
  - reflexivity.
  - discriminate.
  - exists w'. split; [exact Hrun | exact Hsleep].
Defined.

(** C6 as the spec has it fails: from the same policy state a result with
    one failed record and a result with two failed records are both answered
    with a sleep of 100 ms, so no factor relates the count to the
    duration. *)
Lemma sleep_not_proportional_to_failures :
  sleeps (trace (flush 1 demo_config demo_batch "interval"
                   (demo_world [Reject (Nat.eqb 1)] 0)).2) = [100] /\
  sleeps (trace (flush 1 demo_config demo_batch "interval"
                   (demo_world [Reject (Nat.leb 1)] 0)).2) = [100] /\
  ~ sleep_proportional_to_failures (list Reply) ExpBackoff.
Proof.
  split; [reflexivity |]. split; [reflexivity |].
  intros [factor Hprop].
  pose proof (Hprop demo_config demo_batch "interval"%string
                (demo_world [Reject (Nat.eqb 1)] 0)
                (structured (Nat.eqb 1) demo_batch) [] 1
                eq_refl (structured_consistent _ _) eq_refl ltac:(discriminate)) as Hone.
  pose proof (Hprop demo_config demo_batch "interval"%string
                (demo_world [Reject (Nat.leb 1)] 0)
                (structured (Nat.leb 1) demo_batch) [] 2
                eq_refl (structured_consistent _ _) eq_refl ltac:(discriminate)) as Htwo.
  assert (Hone' : [100] = [factor (demo_policy 0) * 1]) by exact Hone.
  assert (Htwo' : [100] = [factor (demo_policy 0) * 2]) by exact Htwo.
  injection Hone' as Hone'. injection Htwo' as Htwo'. lia.
Qed.

Lemma flush_resets_backoff_witness :
  (Duration (demo_policy 3)).1 = 800 /\
  exists rest,
    sleeps
      (trace (flush 1 demo_config demo_batch "interval"
                (flush 1 demo_config demo_batch "interval"
                   (demo_world [Reject (fun _ => false); Fail (ErrOther "timeout")] 3)).2).2)
    = 100 :: rest.
Proof.
  split; [reflexivity |].
  destruct (flush_resets_backoff 1 demo_config demo_batch "interval"
              (demo_world [Reject (fun _ => false); Fail (ErrOther "timeout")] 3))
    as (_ & _ & Hnext).
  destruct (Hnext eq_refl) as (b & evs & Hb & _ & Hsleep).
  destruct (Hsleep 0%nat demo_batch "interval"%string I) as [rest Hrest].
  exists rest. rewrite Hrest.
  injection Hb as Hfloor Hceiling.
  unfold baseline. cbn. rewrite <- Hfloor, <- Hceiling. reflexivity.
Defined.

(** ** The assembler *)

Lemma batchSize_app (rs : list Entry) (r : Entry) :
  batchSize (rs ++ [r]) = batchSize rs + recordSize r.
Proof.
  unfold batchSize. induction rs as [| x rs IH]; simpl; [lia |].
  rewrite IH. lia.
Qed.

Lemma recordSize_nonneg (r : Entry) : 0 <= recordSize r.
Proof. unfold recordSize, strlen, len. lia. Qed.

Lemma len_snoc {A : Type} (l : list A) (x : A) : len (l ++ [x]) = len l + 1.
Proof. rewrite len_app. reflexivity. Qed.

Section LoopInvariant.

Context {C B : Type} `{KinesisAPI C} `{BackoffPolicy B}.

Variable cfg : Config.

(** A property of the world that log lines do not disturb and that a
    flush of a well-formed, non-empty batch issued by [loop] keeps. *)
Variable W : World C B -> Prop.

Hypothesis W_log :
  forall (c : C) (b : B) (t : list Event) (e : Event),
    isLog e = true -> W (mkWorld c b t) -> W (mkWorld c b (t ++ [e])).

Hypothesis W_flush :
  forall (fuel : nat) (rs : list Entry) (reason : string) (w : World C B),
    issued_by_loop reason = true ->
    rs <> [] ->
    batch_ok cfg rs ->
    W w ->
    W (flush fuel cfg rs reason w).2.

Lemma case_record_split (fuel : nat) (backlog : Z) (l : Locals) (record : Entry) :
  case_record fuel cfg backlog l record
  = (l <- (if bufSize l + recordSize record >? maxRequestSize
           then flush fuel cfg (buf l) "request size" ;; ret (mkLocals [] 0 (drain l))
           else ret l) ;;
     append_and_check fuel cfg backlog record l)%go.
Proof. reflexivity. Qed.

(** The second half of the record case: append, count check, drain
    check. *)
Lemma append_and_check_keeps (fuel : nat) (backlog : Z) (l : Locals) (record : Entry)
    (w : World C B) :
  0 <= BufferSize cfg ->
  bufSize l = batchSize (buf l) ->
  batchSize (buf l) + recordSize record <= maxRequestSize ->
  buf l = [] \/ len (buf l) < BufferSize cfg ->
  W w ->
  ctl_ok cfg (append_and_check fuel cfg backlog record l w).1 /\
  W (append_and_check fuel cfg backlog record l w).2.
Proof.
  intros Hcap Hsize Hmax Hshort HW.
  pose proof (recordSize_nonneg record) as Hpos.
  pose proof maxRequestSize_value as HmaxReq.
  unfold append_and_check. fold (recordSize record). cbv zeta. cbn [buf bufSize drain].
  assert (Hlen : len (buf l ++ [record]) <= Z.max 1 (BufferSize cfg)).
  { rewrite len_snoc. destruct Hshort as [-> | Hlt]; [unfold len; simpl |]; lia. }
  unfold bind, ret, emit.
  destruct (Z.geb_spec (len (buf l ++ [record])) (BufferSize cfg)) as [Hfull | Hroom].
  - assert (HW2 : W (flush fuel cfg (buf l ++ [record]) "buffer size" w).2).
    { apply W_flush; [reflexivity | | | assumption].
      - intros Hnil. apply app_eq_nil in Hnil. destruct Hnil as [_ Hnil]. discriminate.
      - split; [rewrite batchSize_app; lia | split; lia]. }
    destruct (flush fuel cfg (buf l ++ [record]) "buffer size" w) as [[[] | msg |] w2];
      cbn [fst snd] in *; [| split; [exact I | assumption]..].
    cbn [drain buf bufSize].
    destruct (drain l && (backlog =? 0)); cbn [fst snd ctl_ok].
    + split; [| destruct w2; apply W_log; [reflexivity | assumption]].
      unfold locals_ok, batchSize. simpl. repeat split; [lia | left; reflexivity].
    + split; [| assumption].
      unfold locals_ok, batchSize. simpl. repeat split; [lia | left; reflexivity].
  - cbn [drain buf bufSize].
    assert (Hok : locals_ok cfg
                    (mkLocals (buf l ++ [record]) (bufSize l + recordSize record) (drain l))).
    { unfold locals_ok. cbn [buf bufSize]. rewrite batchSize_app.
      repeat split; [lia | lia | right; lia]. }
    destruct (drain l && (backlog =? 0)); cbn [fst snd ctl_ok].
    + split; [assumption | destruct w; apply W_log; [reflexivity | assumption]].
    + split; assumption.
Qed.

Lemma case_record_keeps (fuel : nat) (backlog : Z) (l : Locals) (record : Entry)
    (w : World C B) :
  0 <= BufferSize cfg ->
  locals_ok cfg l ->
  recordSize record <= maxRecordSize ->
  W w ->
  ctl_ok cfg (case_record fuel cfg backlog l record w).1 /\
  W (case_record fuel cfg backlog l record w).2.
Proof.
  intros Hcap (Hsize & Hmax & Hshort) Hrec HW.
  pose proof (recordSize_nonneg record) as Hpos.
  pose proof maxRecordSize_value as HmaxRec.
  pose proof maxRequestSize_value as HmaxReq.
  rewrite case_record_split. unfold bind, ret.
  destruct (Z.gtb_spec (bufSize l + recordSize record) maxRequestSize) as [Hover | Hfit].
  - assert (Hne : buf l <> []).
    { intros Hnil. rewrite Hnil in Hsize. unfold batchSize in Hsize. simpl in Hsize. lia. }
    assert (HW1 : W (flush fuel cfg (buf l) "request size" w).2).
    { apply W_flush; [reflexivity | assumption | | assumption].
      split; [assumption |]. destruct Hshort as [Hnil | Hlt]; [contradiction | split; lia]. }
    destruct (flush fuel cfg (buf l) "request size" w) as [[[] | msg |] w1];
      cbn [fst snd] in *; [| split; [exact I | assumption]..].
    apply append_and_check_keeps;
      cbn [buf bufSize]; [assumption | reflexivity | unfold batchSize; simpl; lia
                         | left; reflexivity | assumption].
  - apply append_and_check_keeps; [assumption | assumption | lia | assumption..].
Qed.

Lemma system_ok_intro (p : Producer) (l : Locals) (st : Status) (stop : bool)
    (w : World C B) :
  config p = cfg ->
  Forall (fun x => recordSize x <= maxRecordSize) (queue (records p)) ->
  locals_ok cfg l ->
  (st = Selecting -> 0 <= BufferSize cfg) ->
  system_ok cfg (mkSystem p l st stop w).
Proof. intros. unfold system_ok. cbn [producer locals status]. tauto. Qed.

Lemma case_tick_keeps (fuel : nat) (l : Locals) (w : World C B) :
  0 <= BufferSize cfg ->
  locals_ok cfg l ->
  W w ->
  ctl_ok cfg (case_tick fuel cfg l w).1 /\ W (case_tick fuel cfg l w).2.
Proof.
  intros Hcap (Hsize & Hmax & Hshort) HW.
  pose proof maxRequestSize_value as HmaxReq.
  unfold case_tick, bind, ret.
  destruct (Z.gtb_spec (len (buf l)) 0) as [Hsome | Hnone].
  - assert (HW1 : W (flush fuel cfg (buf l) "interval" w).2).
    { apply W_flush; [reflexivity | | | assumption].
      - intros Hnil. rewrite Hnil in Hsome. unfold len in Hsome. simpl in Hsome. lia.
      - split; [assumption |]. destruct Hshort as [Hnil | Hlt]; [| split; lia].
        rewrite Hnil in Hsome. unfold len in Hsome. simpl in Hsome. lia. }
    destruct (flush fuel cfg (buf l) "interval" w) as [[[] | msg |] w1];
      cbn [fst snd] in *; [| split; [exact I | assumption]..].
    split; [| assumption].
    unfold ctl_ok, locals_ok, batchSize. simpl. repeat split; [lia | left; reflexivity].
  - cbn [fst snd ctl_ok]. split; [repeat split |]; assumption.
Qed.

Lemma settle_keeps (s : System C B) (p : Producer) (r : outcome Ctl * World C B) :
  config p = cfg ->
  Forall (fun x => recordSize x <= maxRecordSize) (queue (records p)) ->
  locals_ok cfg (locals s) ->
  0 <= BufferSize cfg ->
  ctl_ok cfg r.1 ->
  W r.2 ->
  system_ok cfg (settle s p r) /\ W (world (settle s p r)).
Proof.
  intros Hcfg Hqueue Hlocals Hcap Hctl HW.
  destruct r as [[[l | l] | msg |] w]; cbn [fst snd settle ctl_ok] in *.
  - split; [| assumption]. apply system_ok_intro; auto.
  - split.
    + apply system_ok_intro; auto.
    + cbn [world]. destruct (stopping s); [| assumption].
      destruct w. apply W_log; [reflexivity | assumption].
  - split; [| assumption]. apply system_ok_intro; auto.
  - split; [| assumption]. apply system_ok_intro; auto.
Qed.

(** Every action keeps the invariant. *)
Lemma step_keeps (fuel : nat) (a : Action) (s s' : System C B) :
  system_ok cfg s ->
  W (world s) ->
  step fuel a s = Some s' ->
  system_ok cfg s' /\ W (world s').
Proof.
  intros (Hcfg & Hqueue & Hlocals & Hcap) HW Hstep.
  destruct a as [data partitionKey | data partitionKey | | |]; cbn [step] in Hstep.
  - (* Put *)
    assert (Hput : forall st, (forall msg, st <> Crashed msg) -> status s = st ->
              match Put (producer s) data partitionKey with
              | PutReturns _ p' =>
                  Some (mkSystem p' (locals s) (status s) (stopping s) (world s))
              | PutBlocks => None
              | PutPanics =>
                  Some (mkSystem (producer s) (locals s) (Crashed "send on closed channel")
                          (stopping s) (world s))
              end = Some s' ->
              system_ok cfg s' /\ W (world s')).
    { intros st _ _ Hres.
      destruct (Put (producer s) data partitionKey) as [err p' | |] eqn:HPut;
        [| discriminate |].
      - injection Hres as <-. cbn [world]. split; [| assumption].
        destruct (Put_returns_inv _ _ _ _ _ HPut)
          as [(_ & -> & _) | (_ & Hcfg' & Hfit & Hq & _)].
        + apply system_ok_intro; auto.
        + apply system_ok_intro; auto; [congruence |].
          rewrite Hq. apply Forall_app. split; [assumption |]. constructor; [| constructor].
          rewrite recordSize_put_entry. assumption.
      - injection Hres as <-. cbn [world]. split; [| assumption].
        apply system_ok_intro; auto. discriminate. }
    destruct (status s) eqn:Hst; [..| discriminate |];
      eapply Hput; try eassumption; try reflexivity; discriminate.
  - (* Put, handing the record to the waiting loop *)
    destruct (status s) eqn:Hst; try discriminate.
    destruct (Z.gtb_spec (len data + strlen partitionKey + len (Separator (config (producer s))))
                maxRecordSize) as [Hbig | Hfit]; [discriminate |].
    cbn [orb] in Hstep.
    destruct (closed (records (producer s))); [discriminate |].
    destruct (len (queue (records (producer s))) =? 0); [| discriminate].
    cbn [orb negb] in Hstep. injection Hstep as <-. rewrite Hcfg.
    destruct (case_record_keeps fuel 0 (locals s) (put_entry (producer s) data partitionKey)
                (world s)) as [Hctl HW'];
      [apply Hcap; reflexivity | assumption | rewrite recordSize_put_entry; assumption
      | assumption |].
    apply settle_keeps; first [reflexivity | assumption | apply Hcap; reflexivity].
  - (* Stop *)
    destruct (status s) eqn:Hstat; try discriminate.
    destruct (stopping s) eqn:Hstop; [discriminate |].
    injection Hstep as <-.
    apply settle_keeps; cbn [locals config records chan_close queue].
    + assumption.
    + assumption.
    + assumption.
    + apply Hcap. reflexivity.
    + unfold bind, emit, case_done, ret.
      destruct (len (queue (records (producer s))) =? 0); cbn [fst ctl_ok];
        repeat split; apply Hlocals.
    + unfold bind, emit, case_done, ret.
      destruct (len (queue (records (producer s))) =? 0); cbn [snd];
        (destruct (world s); apply W_log; [reflexivity | assumption]).
  - (* a record arrives *)
    destruct (status s) eqn:Hst; try discriminate.
    unfold chan_recv in Hstep.
    destruct (queue (records (producer s))) as [| record q] eqn:Hq.
    + destruct (closed (records (producer s))); [| discriminate].
      injection Hstep as <-. cbn [world]. split; [| assumption].
      apply system_ok_intro; auto; first [discriminate | rewrite Hq; constructor].
    + injection Hstep as <-. apply Forall_cons in Hqueue. destruct Hqueue as [Hrecord Hrest].
      rewrite Hcfg.
      destruct (case_record_keeps fuel (len q) (locals s) record (world s))
        as [Hctl HW']; [apply Hcap; reflexivity | assumption.. |].
      apply settle_keeps; cbn [config records queue];
        first [reflexivity | assumption | apply Hcap; reflexivity].
  - (* a tick *)
    destruct (status s) eqn:Hst; try discriminate.
    injection Hstep as <-. rewrite Hcfg.
    destruct (case_tick_keeps fuel (locals s) (world s)) as [Hctl HW'];
      [apply Hcap; reflexivity | assumption.. |].
    apply settle_keeps; first [reflexivity | assumption | apply Hcap; reflexivity].
Qed.

Lemma run_keeps (fuel : nat) (acts : list Action) :
  forall s s' : System C B,
    system_ok cfg s ->
    W (world s) ->
    run fuel acts s = Some s' ->
    system_ok cfg s' /\ W (world s').
Proof.
  induction acts as [| a acts IH]; intros s s' Hok HW Hrun; simpl in Hrun.
  - injection Hrun as <-. split; assumption.
  - destruct (step fuel a s) as [s1 |] eqn:Hstep; [| discriminate].
    destruct (step_keeps fuel a s s1 Hok HW Hstep) as [Hok1 HW1].
    eapply IH; eassumption.
Qed.

Lemma boot_ok (defaults : Config -> Config) (c : Config) (cl : C) (b : B) :
  defaults c = cfg ->
  system_ok cfg (boot defaults c cl b).
Proof.
  intros Hcfg. unfold boot, Start, New, loop_enter. cbn [config]. rewrite Hcfg.
  assert (Hempty : locals_ok cfg (mkLocals [] 0 false)).
  { unfold locals_ok, batchSize. simpl. pose proof maxRequestSize_value.
    repeat split; [lia | left; reflexivity]. }
  destruct (Z.ltb_spec (BufferSize cfg) 0) as [Hneg | Hpos].
  - apply system_ok_intro; auto; discriminate.
  - destruct (FlushInterval cfg <=? 0); apply system_ok_intro; auto; discriminate.
Qed.

End LoopInvariant.

(** ** What the assembler hands to the flusher *)

(** In every run, every batch [loop] has passed to [flush] is within the
    request size and holds at most [BufferSize] records (one record when
    the buffer size is zero). *)
Lemma loop_batches_ok {C B : Type} `{KinesisAPI C} `{BackoffPolicy B}
    (defaults : Config -> Config) (c : Config) (cl : C) (b : B)
    (fuel : nat) (acts : list Action) (s : System C B) :
  run fuel acts (boot defaults c cl b) = Some s ->
  Forall (batch_ok (defaults c)) (loop_flushes (trace (world s))).
Proof.
  intros Hrun.
  pose (W := fun w : World C B =>
               Forall (batch_ok (defaults c)) (loop_flushes (trace w))).
  assert (Hkeeps : system_ok (defaults c) s /\ W (world s)).
  { apply (run_keeps (defaults c) W) with (fuel := fuel) (acts := acts)
                                          (s := boot defaults c cl b).
    - intros c0 b0 t e He HW. unfold W in *. cbn [trace] in *.
      rewrite loop_flushes_app. destruct e; try discriminate He.
      simpl. rewrite app_nil_r. assumption.
    - intros fuel0 rs reason w Hreason _ Hok HW. unfold W in *.
      rewrite flush_loop_flushes, Hreason.
      apply Forall_app. split; [assumption |].
      destruct fuel0; repeat constructor; apply Hok.
    - apply boot_ok. reflexivity.
    - unfold W, boot, Start. destruct (loop_enter _); constructor.
    - assumption. }
  apply Hkeeps.
Qed.

(** C2: in every run of the producer, from [New] and [Start] on and with
    the records that [Put] lets through (at most 1 MiB each), every batch
    that [loop] passes to [flush], and so to [PutRecords], holds at most
    5 MiB (summing [len(Data) + len(PartitionKey)] over its records) and at
    most [BufferSize] records, for a buffer size that is set (not zero). *)
Theorem loop_batches_within_limits {C B : Type} `{KinesisAPI C} `{BackoffPolicy B}
    (defaults : Config -> Config) (c : Config) (cl : C) (b : B)
    (fuel : nat) (acts : list Action) (s : System C B) :
  BufferSize (defaults c) <> 0 ->
  run fuel acts (boot defaults c cl b) = Some s ->
  maxRequestSize = 5 * 1048576 /\
  Forall (fun rs => batchSize rs <= maxRequestSize /\ len rs <= BufferSize (defaults c))
    (loop_flushes (trace (world s))).
Proof.
  intros Hset Hrun. split; [reflexivity |].
  eapply Forall_impl; [exact (loop_batches_ok defaults c cl b fuel acts s Hrun) |].
  intros rs (Hsize & Hcount & Hcap). split; [assumption | lia].
Qed.

Lemma loop_batches_within_limits_witness :
  match run 5 scenario_A (boot (fun c => c) demo_config ([] : list Reply) (demo_policy 0)) with
  | Some s =>
      loop_flushes (trace (world s)) = [[record_a; record_b]] /\
      Forall (fun rs => batchSize rs <= maxRequestSize /\ len rs <= 2)
        (loop_flushes (trace (world s)))
  | None => False
  end.
Proof.
  destruct (run 5 scenario_A (boot (fun c => c) demo_config ([] : list Reply) (demo_policy 0)))
    as [s |] eqn:Hrun; [| vm_compute in Hrun; discriminate Hrun].
  split.
  - vm_compute in Hrun. injection Hrun as <-. vm_compute. reflexivity.
  - apply (loop_batches_within_limits (fun c => c) demo_config [] (demo_policy 0) 5 scenario_A s).
    + vm_compute. discriminate.
    + exact Hrun.
Defined.

(** ** Shutdown *)

(** When [Stop] finds the queue empty, [loop] returns at once: whatever is
    in [buf] stays there and nothing is submitted. *)
Lemma Stop_on_empty_queue_drops_buffer {C B : Type} `{KinesisAPI C} `{BackoffPolicy B}
    (fuel : nat) (s : System C B) :
  status s = Selecting ->
  stopping s = false ->
  queue (records (producer s)) = [] ->
  exists s',
    step fuel CallStop s = Some s' /\
    status s' = Exited /\
    buf (locals s') = buf (locals s) /\
    submissions (trace (world s')) = submissions (trace (world s)).
Proof.
  intros Hst Hstop Hq. cbn [step]. rewrite Hst, Hstop, Hq.
  eexists. split; [reflexivity |].
  unfold bind, emit, case_done, ret, len. simpl.
  repeat split. rewrite !submissions_app. simpl. rewrite !app_nil_r. reflexivity.
Qed.

(** C1, on the code: in scenario A the first two records are flushed when
    the buffer is full, and the third is still in [buf] when [loop] returns
    and [Stop] with it, whether [Stop] comes after the loop has taken the
    three records or while they are still queued.  The third record is
    never passed to [flush]. *)
Theorem scenario_A_loses_last_record :
  Forall
    (fun acts =>
       exists s : System (list Reply) ExpBackoff,
         run 5 acts (boot (fun c => c) demo_config [] (demo_policy 0)) = Some s /\
         status s = Exited /\
         queue (records (producer s)) = [] /\
         buf (locals s) = [record_c] /\
         loop_flushes (trace (world s)) = [[record_a; record_b]] /\
         submissions (trace (world s)) = [[record_a; record_b]] /\
         Forall (fun rs => record_c ∉ rs) (submissions (trace (world s))))
    [scenario_A; scenario_A_backlog].
Proof.
  repeat constructor; eexists; (split; [vm_compute; reflexivity |]);
    (split; [reflexivity |]); (split; [reflexivity |]); (split; [reflexivity |]);
    (split; [vm_compute; reflexivity |]); (split; [vm_compute; reflexivity |]);
    change (Forall (fun rs => record_c ∉ rs) [[record_a; record_b]]);
    repeat constructor;
    intros Hin; repeat (apply elem_of_cons in Hin; destruct Hin as [Hin | Hin]; [discriminate |]);
    inversion Hin.
Qed.

(** ** No empty submission *)

Lemma scripted_honestly_honest : honest scripted_honestly.
Proof.
  intros script stream rs Hscript. unfold PutRecords, Script_client.
  destruct script as [| reply script].
  - split; [apply structured_consistent | constructor].
  - apply Forall_cons in Hscript. destruct Hscript as [Hreply Hscript].
    destruct reply as [e | f | out]; [assumption | | contradiction].
    split; [apply structured_consistent | assumption].
Qed.



(** The consistency of the results matters: [flush] decides to retry from
    the failed count and picks the records to retry from the error codes.
    On a structured result that reports one failure and marks no entry, the
    retry submits an empty list of records. *)
Lemma empty_submission_after_miscounted_result :
  exists s : System (list Reply) ExpBackoff,
    run 5 flaky_run (boot (fun c => c) demo_config [Raw miscounted_result] (demo_policy 0))
    = Some s /\
    submissions (trace (world s)) = [[record_a; record_b]; []] /\
    ~ Forall (fun rs => rs <> []) (submissions (trace (world s))).
Proof.
  eexists. split; [vm_compute; reflexivity |].
  split; [vm_compute; reflexivity |].
  change (~ Forall (fun rs : list Entry => rs <> []) [[record_a; record_b]; []]).
  intros Hall. apply Forall_cons in Hall. destruct Hall as [_ Hall].
  apply Forall_cons in Hall. destruct Hall as [Hne _]. apply Hne. reflexivity.
Qed.

(** * Further properties *)

(** ** [failures] returns the rejected records or panics *)

Lemma failures_range_Ret (records : list Entry) (response : list PutRecordsResultEntry) :
  forall (i : nat) (out res : list Entry),
    failures_range records i response out = Ret res ->
    res = out ++ rejected (drop i records) response.
Proof.
  induction response as [| r rest IH]; intros i out res Hres; simpl in Hres.
  - injection Hres as <-. rewrite rejected_nil_r, app_nil_r. reflexivity.
  - destruct (records !! i) as [x |] eqn:Hx.
    + rewrite (drop_S _ _ _ Hx), rejected_cons.
      destruct (hasError r).
      * rewrite (IH _ _ _ Hres), <- app_assoc. reflexivity.
      * apply IH. assumption.
    + destruct (hasError r); [discriminate |].
      apply lookup_ge_None in Hx.
      rewrite (IH _ _ _ Hres).
      rewrite !drop_ge by lia. reflexivity.
Qed.

Lemma failures_Ret (records : list Entry) (response : list PutRecordsResultEntry)
    (retry : list Entry) :
  failures records response = Ret retry ->
  retry = rejected records response.
Proof. intros Hres. apply (failures_range_Ret _ _ 0%nat [] _ Hres). Qed.

Lemma durations_app (t u : list Event) : durations (t ++ u) = durations t ++ durations u.
Proof. apply omap_app. Qed.

Lemma logs_no_duration (logs : list Event) :
  Forall (fun e => isLog e = true) logs -> durations logs = [].
Proof.
  induction 1 as [| e logs He _ IH]; [reflexivity |].
  destruct e; try discriminate He. exact IH.
Qed.

Lemma batchSize_sublist (l k : list Entry) :
  l `sublist_of` k -> batchSize l <= batchSize k.
Proof.
  induction 1 as [| x l k _ IH | x l k _ IH]; unfold batchSize in *; simpl.
  - lia.
  - lia.
  - pose proof (recordSize_nonneg x). lia.
Qed.

Section FlusherExtras.

Context {C B : Type} `{KinesisAPI C} `{BackoffPolicy B}.

Implicit Types (w : World C B) (records : list Entry) (reason : string) (p : Config).

Lemma flush_submissions_sublists (fuel : nat) p records reason w :
  exists subs : list (list Entry),
    submissions (trace (flush fuel p records reason w).2) = submissions (trace w) ++ subs /\
    Forall (fun rs => rs `sublist_of` records) subs.
Proof.
  apply (flush_induction p
           (fun _ records _ w r =>
              exists subs : list (list Entry),
                submissions (trace r.2) = submissions (trace w) ++ subs /\
                Forall (fun rs => rs `sublist_of` records) subs)).
  - intros. exists []. rewrite app_nil_r. split; [reflexivity | constructor].
  - intros ? records' ? w0 err c _ w' (subs & Hsubs & Hall).
    exists (records' :: subs). rewrite Hsubs. subst w'. cbn [trace].
    rewrite submissions_round by reflexivity. rewrite <- app_assoc.
    split; [reflexivity | constructor; [reflexivity | assumption]].
  - intros ? records' ? w0 out c _ _. exists [records']. cbn [snd trace].
    rewrite <- (app_nil_r [_; _]), submissions_round by reflexivity.
    split; [reflexivity | constructor; [reflexivity | constructor]].
  - intros ? records' reason' w0 out c _ _. exists [records']. cbn [snd trace].
    change [EvFlush records' reason'; EvPutRecords (StreamName p) records'; EvReset]
      with ([EvFlush records' reason'; EvPutRecords (StreamName p) records'] ++ [EvReset]).
    rewrite submissions_round by reflexivity.
    split; [reflexivity | constructor; [reflexivity | constructor]].
  - intros ? records' ? w0 out c failed logs msg _ _ _ Hlogs. exists [records'].
    cbn [snd trace]. rewrite submissions_round by (apply logs_silent; assumption).
    split; [reflexivity | constructor; [reflexivity | constructor]].
  - intros ? records' ? w0 out c failed logs msg _ _ _ Hlogs _. exists [records'].
    cbn [snd trace]. rewrite submissions_round.
    + split; [reflexivity | constructor; [reflexivity | constructor]].
    + rewrite submissions_app. destruct (logs_silent _ Hlogs) as (-> & _). reflexivity.
  - intros ? records' ? w0 out c failed logs retry _ _ _ Hlogs Hfail w' (subs & Hsubs & Hall).
    exists (records' :: subs). rewrite Hsubs. subst w'. cbn [trace].
    rewrite submissions_round.
    + rewrite <- app_assoc. split; [reflexivity |].
      constructor; [reflexivity |].
      apply failures_Ret in Hfail. subst retry.
      eapply Forall_impl; [exact Hall |].
      intros rs Hrs. etransitivity; [exact Hrs | apply rejected_sublist].
    + rewrite submissions_app. destruct (logs_silent _ Hlogs) as (-> & _). reflexivity.
Qed.

(** X1: whatever the client answers, every list of records a call of
    [flush] submits, the first submission and every retry, is a sublist of
    the batch it was given: the same records in the same relative order,
    none added, and so no more records and no more bytes than the batch. *)
Theorem flush_submits_sublists (fuel : nat) p records reason w :
  exists subs : list (list Entry),
    submissions (trace (flush fuel p records reason w).2) = submissions (trace w) ++ subs /\
    Forall (fun rs => rs `sublist_of` records /\
                      len rs <= len records /\
                      batchSize rs <= batchSize records) subs.
Proof.
  destruct (flush_submissions_sublists fuel p records reason w) as (subs & Hsubs & Hall).
  exists subs. split; [assumption |].
  eapply Forall_impl; [exact Hall |].
  intros rs Hsub. split; [assumption |]. split.
  - apply sublist_length in Hsub. unfold len. lia.
  - apply batchSize_sublist. assumption.
Qed.

(** What a failed round adds to the readers. *)
Lemma failed_round_reads records reason (stream : string) (logs : list Event) (n d : Z) :
  Forall (fun e => isLog e = true) logs ->
  let round := [EvFlush records reason; EvPutRecords stream records]
                 ++ logs ++ backoff_events n d in
  submissions round = [records] /\ sleeps round = [d] /\ durations round = [d].
Proof.
  intros Hlogs round. subst round.
  rewrite !submissions_app, !sleeps_app, !durations_app.
  destruct (logs_silent _ Hlogs) as (-> & -> & _).
  rewrite (logs_no_duration _ Hlogs). repeat split.
Qed.

(** X2: in every call of [flush], the policy is asked for a duration once
    per sleep and every sleep lasts exactly the duration handed out; a call
    that returns has slept once per submission but the last, and a call that
    is still retrying has slept once per submission. *)
Theorem flush_backs_off_once_per_failure (fuel : nat) p records reason w :
  exists evs : list Event,
    trace (flush fuel p records reason w).2 = trace w ++ evs /\
    sleeps evs = durations evs /\
    match (flush fuel p records reason w).1 with
    | Ret _ => length (submissions evs) = S (length (sleeps evs))
    | OutOfFuel => length (submissions evs) = length (sleeps evs)
    | Panic _ =>
        (length (sleeps evs) <= length (submissions evs) <= S (length (sleeps evs)))%nat
    end.
Proof.
  apply (flush_induction p
           (fun _ _ _ w r =>
              exists evs : list Event,
                trace r.2 = trace w ++ evs /\
                sleeps evs = durations evs /\
                match r.1 with
                | Ret _ => length (submissions evs) = S (length (sleeps evs))
                | OutOfFuel => length (submissions evs) = length (sleeps evs)
                | Panic _ =>
                    (length (sleeps evs) <= length (submissions evs)
                     <= S (length (sleeps evs)))%nat
                end)).
  - intros. exists []. rewrite app_nil_r. repeat split.
  - intros ? records' reason' w0 err c _ w' (evs & Htrace & Hsleeps & Hcount).
    destruct (failed_round_reads records' reason' (StreamName p)
                [EvLog ErrorLevel "flush" [("error"%string, FError err)]]
                (len records') (Duration (policy w0)).1) as (Hs & Hsl & Hd);
      [repeat constructor |].
    cbv zeta in Hs, Hsl, Hd.
    exists (([EvFlush records' reason'; EvPutRecords (StreamName p) records']
             ++ [EvLog ErrorLevel "flush" [("error"%string, FError err)]]
             ++ backoff_events (len records') (Duration (policy w0)).1) ++ evs).
    split; [rewrite Htrace; subst w'; cbn [trace]; rewrite <- !app_assoc; reflexivity |].
    rewrite submissions_app, sleeps_app, durations_app, Hs, Hsl, Hd, Hsleeps.
    split; [reflexivity |]. rewrite !length_app. cbn [length].
    rewrite Hsleeps in Hcount.
    revert Hcount. destruct (flush _ _ _ _ _).1; intros Hcount; lia.
  - intros ? records' reason' w0 out c _ _.
    exists [EvFlush records' reason'; EvPutRecords (StreamName p) records'].
    cbn. repeat split; lia.
  - intros ? records' reason' w0 out c _ _.
    exists [EvFlush records' reason'; EvPutRecords (StreamName p) records'; EvReset].
    cbn. repeat split.
  - intros ? records' reason' w0 out c failed logs msg _ _ _ Hlogs.
    exists ([EvFlush records' reason'; EvPutRecords (StreamName p) records'] ++ logs).
    cbn [fst snd trace].
    rewrite submissions_app, sleeps_app, durations_app.
    destruct (logs_silent _ Hlogs) as (-> & -> & _). rewrite (logs_no_duration _ Hlogs).
    cbn. repeat split; lia.
  - intros ? records' reason' w0 out c failed logs msg _ _ _ Hlogs _.
    destruct (failed_round_reads records' reason' (StreamName p) logs failed
                (Duration (policy w0)).1 Hlogs) as (Hs & Hsl & Hd).
    cbv zeta in Hs, Hsl, Hd.
    exists ([EvFlush records' reason'; EvPutRecords (StreamName p) records']
            ++ logs ++ backoff_events failed (Duration (policy w0)).1).
    split; [reflexivity |]. cbn [fst].
    rewrite Hs, Hsl, Hd. cbn. repeat split; lia.
  - intros ? records' reason' w0 out c failed logs retry _ _ _ Hlogs _ w'
      (evs & Htrace & Hsleeps & Hcount).
    destruct (failed_round_reads records' reason' (StreamName p) logs failed
                (Duration (policy w0)).1 Hlogs) as (Hs & Hsl & Hd).
    cbv zeta in Hs, Hsl, Hd.
    exists (([EvFlush records' reason'; EvPutRecords (StreamName p) records']
             ++ logs ++ backoff_events failed (Duration (policy w0)).1) ++ evs).
    split; [rewrite Htrace; subst w'; cbn [trace]; rewrite <- !app_assoc; reflexivity |].
    rewrite submissions_app, sleeps_app, durations_app, Hs, Hsl, Hd, Hsleeps.
    split; [reflexivity |]. rewrite !length_app. cbn [length].
    rewrite Hsleeps in Hcount.
    revert Hcount. destruct (flush _ _ _ _ _).1; intros Hcount; lia.
Qed.


(** The logging loop panics at the first rejected entry without a
    message. *)
Lemma log_rejected_panics (rs : list PutRecordsResultEntry) w :
  Exists (fun r => hasError r = true /\ ErrorMessage r = None) rs ->
  exists logs,
    log_rejected rs w
    = (Panic "nil pointer dereference", mkWorld (client w) (policy w) (trace w ++ logs)) /\
    Forall (fun e => isLog e = true) logs.
Proof.
  intros Hbad. revert w. induction Hbad as [r rest [Hcode Hmsg] | r rest _ IH]; intros w; simpl.
  - unfold hasError in Hcode. destruct (ErrorCode r) as [code |]; [| discriminate].
    rewrite Hmsg. exists []. rewrite app_nil_r. destruct w. split; [reflexivity | constructor].
  - destruct (ErrorCode r) as [code |]; [| apply IH].
    destruct (ErrorMessage r) as [msg |].
    + unfold bind, emit.
      match goal with |- context [log_rejected rest ?w1] =>
        destruct (IH w1) as (logs & Hrun & Hlogs) end.
      rewrite Hrun. cbn [client policy trace]. rewrite <- app_assoc.
      eexists. split; [reflexivity |]. constructor; [reflexivity | assumption].
    + exists []. rewrite app_nil_r. destruct w. split; [reflexivity | constructor].
Qed.

(** X4: a structured result without a failed count, or one that reports
    failures and carries an error code without a message, makes [flush]
    panic on the nil pointer: after that one submission there is no sleep,
    no reset and no retry. *)
Theorem flush_panics_on_malformed_result (fuel : nat) p records reason w
    (out : PutRecordsOutput) (c : C) :
  PutRecords (client w) (StreamName p) records = (inl out, c) ->
  FailedRecordCount out = None \/
  (exists N, FailedRecordCount out = Some N /\ N <> 0 /\
             Exists (fun r => hasError r = true /\ ErrorMessage r = None) (Records out)) ->
  (flush (S fuel) p records reason w).1 = Panic "nil pointer dereference" /\
  submissions (trace (flush (S fuel) p records reason w).2)
  = submissions (trace w) ++ [records] /\
  sleeps (trace (flush (S fuel) p records reason w).2) = sleeps (trace w) /\
  resets (trace (flush (S fuel) p records reason w).2) = resets (trace w).
Proof.
  intros Hcall Hbad. rewrite flush_unfold, Hcall. cbv zeta.
  destruct Hbad as [Hnil | (N & HN & Hfailed & Hbad)].
  - rewrite Hnil. cbn [fst snd trace].
    rewrite submissions_app, sleeps_app, resets_app. cbn.
    rewrite !app_nil_r, Nat.add_0_r. repeat split.
  - rewrite HN. destruct (Z.eqb_spec N 0) as [| _]; [contradiction |].
    destruct (log_rejected_panics (Records out)
                (mkWorld c (policy w)
                   (trace w ++ [EvFlush records reason; EvPutRecords (StreamName p) records]))
                Hbad) as (logs & -> & Hlogs).
    cbn [fst snd client policy trace].
    rewrite !submissions_app, !sleeps_app, !resets_app.
    destruct (logs_silent _ Hlogs) as (-> & -> & _ & ->). cbn.
    rewrite !app_nil_r, !Nat.add_0_r. repeat split.
Qed.

End FlusherExtras.


Lemma flush_panics_on_malformed_result_witness :
  (flush 2 demo_config demo_batch "interval" (demo_world [Raw unexplained_result] 0)).1
  = Panic "nil pointer dereference" /\
  submissions
    (trace (flush 2 demo_config demo_batch "interval" (demo_world [Raw unexplained_result] 0)).2)
  = [demo_batch].
Proof.
  destruct (flush_panics_on_malformed_result 1 demo_config demo_batch "interval"
              (demo_world [Raw unexplained_result] 0) unexplained_result [])
    as (Hpanic & Hsub & _).
  - reflexivity.
  - right. exists 1. split; [reflexivity |]. split; [discriminate |].
    apply Exists_cons_tl, Exists_cons_hd. split; reflexivity.
  - split; [exact Hpanic | exact Hsub].
Defined.

(** ** The passes of the loop, when they end *)

Section LoopExtras.

Context {C B : Type} `{KinesisAPI C} `{BackoffPolicy B}.

Implicit Types (w : World C B) (l : Locals) (cfg : Config).

(** A flush issued by [loop] that returns leaves its batch in the trace
    and has called [Reset] once. *)
Lemma flush_by_loop_returns (fuel : nat) cfg (rs : list Entry) (reason : string) w :
  (flush fuel cfg rs reason w).1 = Ret tt ->
  issued_by_loop reason = true ->
  loop_flushes (trace (flush fuel cfg rs reason w).2) = loop_flushes (trace w) ++ [rs] /\
  resets (trace (flush fuel cfg rs reason w).2) = S (resets (trace w)).
Proof.
  intros Hret Hreason. split.
  - rewrite flush_loop_flushes, Hreason. destruct fuel; [discriminate Hret | reflexivity].
  - rewrite flush_resets, Hret. lia.
Qed.

Lemma append_and_check_returns (fuel : nat) cfg (backlog : Z) (record : Entry) l w
    (ctl : Ctl) :
  (append_and_check fuel cfg backlog record l w).1 = Ret ctl ->
  exists batches : list (list Entry),
    loop_flushes (trace (append_and_check fuel cfg backlog record l w).2)
    = loop_flushes (trace w) ++ batches /\
    resets (trace (append_and_check fuel cfg backlog record l w).2)
    = (resets (trace w) + length batches)%nat /\
    concat batches ++ buf (ctl_locals ctl) = buf l ++ [record] /\
    drain (ctl_locals ctl) = drain l /\
    is_return ctl = drain l && (backlog =? 0).
Proof.
  unfold append_and_check. cbv zeta. cbn [buf bufSize drain].
  unfold bind, ret, emit.
  destruct (len (buf l ++ [record]) >=? BufferSize cfg).
  - pose proof (flush_by_loop_returns fuel cfg (buf l ++ [record]) "buffer size" w) as Hflush.
    destruct (flush fuel cfg (buf l ++ [record]) "buffer size" w) as [[[] | msg |] w1];
      cbn [fst snd] in *; try discriminate.
    destruct (Hflush eq_refl eq_refl) as [Hf Hr].
    cbn [drain]. destruct (drain l && (backlog =? 0)); cbn [fst snd client policy trace];
      intros [= <-]; exists [buf l ++ [record]]; cbn [ctl_locals is_return buf drain concat length];
      rewrite ?loop_flushes_app, ?resets_app, ?resets_cons, ?resets_nil, ?Hf, ?Hr;
      cbn [loop_flushes omap isReset app Nat.add];
      rewrite ?app_nil_r; repeat split; first [reflexivity | lia].
  - cbn [drain]. destruct (drain l && (backlog =? 0)); cbn [fst snd client policy trace];
      intros [= <-]; exists []; cbn [ctl_locals is_return buf drain concat length];
      rewrite ?loop_flushes_app, ?resets_app, ?resets_cons, ?resets_nil;
      cbn [loop_flushes omap isReset app Nat.add];
      rewrite ?app_nil_r; repeat split; first [reflexivity | lia].
Qed.

Lemma case_record_returns (fuel : nat) cfg (backlog : Z) l (record : Entry) w (ctl : Ctl) :
  (case_record fuel cfg backlog l record w).1 = Ret ctl ->
  exists batches : list (list Entry),
    loop_flushes (trace (case_record fuel cfg backlog l record w).2)
    = loop_flushes (trace w) ++ batches /\
    resets (trace (case_record fuel cfg backlog l record w).2)
    = (resets (trace w) + length batches)%nat /\
    concat batches ++ buf (ctl_locals ctl) = buf l ++ [record] /\
    drain (ctl_locals ctl) = drain l /\
    is_return ctl = drain l && (backlog =? 0).
Proof.
  rewrite case_record_split. unfold bind, ret.
  destruct (bufSize l + recordSize record >? maxRequestSize).
  - pose proof (flush_by_loop_returns fuel cfg (buf l) "request size" w) as Hflush.
    destruct (flush fuel cfg (buf l) "request size" w) as [[[] | msg |] w1];
      cbn [fst snd] in *; try discriminate.
    destruct (Hflush eq_refl eq_refl) as [Hf Hr].
    intros Hret.
    destruct (append_and_check_returns fuel cfg backlog record (mkLocals [] 0 (drain l)) w1
                ctl Hret) as (batches & Hf' & Hr' & Hbuf & Hdrain & Hctl).
    exists (buf l :: batches). cbn [buf drain] in *.
    rewrite Hf', Hr', Hf, Hr, <- app_assoc. cbn [concat length app].
    rewrite <- app_assoc, Hbuf. repeat split; first [assumption | lia].
  - intros Hret.
    destruct (append_and_check_returns fuel cfg backlog record l w ctl Hret)
      as (batches & Hf' & Hr' & Hbuf & Hdrain & Hctl).
    exists batches. repeat split; assumption.
Qed.

Lemma case_tick_returns (fuel : nat) cfg l w (ctl : Ctl) :
  (case_tick fuel cfg l w).1 = Ret ctl ->
  exists batches : list (list Entry),
    loop_flushes (trace (case_tick fuel cfg l w).2) = loop_flushes (trace w) ++ batches /\
    resets (trace (case_tick fuel cfg l w).2) = (resets (trace w) + length batches)%nat /\
    concat batches ++ buf (ctl_locals ctl) = buf l /\
    drain (ctl_locals ctl) = drain l /\
    is_return ctl = false.
Proof.
  unfold case_tick, bind, ret.
  destruct (len (buf l) >? 0).
  - pose proof (flush_by_loop_returns fuel cfg (buf l) "interval" w) as Hflush.
    destruct (flush fuel cfg (buf l) "interval" w) as [[[] | msg |] w1];
      cbn [fst snd] in *; try discriminate.
    destruct (Hflush eq_refl eq_refl) as [Hf Hr].
    intros [= <-]. exists [buf l]. cbn [ctl_locals is_return buf drain concat length].
    rewrite Hf, Hr, !app_nil_r. repeat split; lia.
  - cbn [fst snd]. intros [= <-]. exists []. cbn [ctl_locals is_return concat length app].
    rewrite app_nil_r. repeat split; lia.
Qed.

(** ** One action of a system that stays alive *)

Lemma settle_alive (s : System C B) (p : Producer) (r : outcome Ctl * World C B) :
  alive (status (settle s p r)) = true ->
  exists ctl,
    r.1 = Ret ctl /\
    producer (settle s p r) = p /\
    locals (settle s p r) = ctl_locals ctl /\
    status (settle s p r) = (if is_return ctl then Exited else Selecting) /\
    stopping (settle s p r) = stopping s /\
    loop_flushes (trace (world (settle s p r))) = loop_flushes (trace r.2) /\
    resets (trace (world (settle s p r))) = resets (trace r.2).
Proof.
  destruct r as [[[l | l] | msg |] w]; cbn [settle status alive]; try discriminate; intros _.
  - exists (Continue l). repeat split.
  - exists (Return l). cbn [fst snd producer locals status stopping world is_return ctl_locals].
    repeat split; destruct (stopping s); try reflexivity; cbn [trace].
    + rewrite loop_flushes_app. cbn. apply app_nil_r.
    + rewrite resets_app, resets_cons, resets_nil. cbn. lia.
Qed.

Lemma len_zero_nil {A : Type} (l : list A) : (len l =? 0) = true -> l = [].
Proof. destruct l; [reflexivity |]. unfold len. simpl. discriminate. Qed.

Lemma put_entry_taken (p : Producer) (data : list byte) (partitionKey : string) :
  len data + strlen partitionKey + len (Separator (config p)) <= maxRecordSize ->
  taken (config p) (CallPut data partitionKey) = [put_entry p data partitionKey] /\
  taken (config p) (PutToLoop data partitionKey) = [put_entry p data partitionKey].
Proof.
  intros Hfit. unfold taken, put_entry.
  destruct (Z.gtb_spec (len data + strlen partitionKey + len (Separator (config p))) maxRecordSize);
    [lia |]. split; reflexivity.
Qed.

(** An action that leaves the loop goroutine alive found it alive, moves
    the records the producer holds along without losing, repeating or
    reordering any, adds the record a [Put] accepts at the young end, and
    calls [Reset] once for every batch [loop] flushes. *)
Lemma step_alive (fuel : nat) (a : Action) (s s' : System C B) :
  step fuel a s = Some s' ->
  alive (status s') = true ->
  alive (status s) = true /\
  config (producer s') = config (producer s) /\
  inflight s' = inflight s ++ taken (config (producer s)) a /\
  (resets (trace (world s')) + length (loop_flushes (trace (world s))))%nat
  = (resets (trace (world s)) + length (loop_flushes (trace (world s'))))%nat.
Proof.
  intros Hstep Halive.
  destruct a as [data partitionKey | data partitionKey | | |]; cbn [step] in Hstep.
  - (* Put *)
    assert (Hput : (forall msg, status s <> Crashed msg) ->
              match Put (producer s) data partitionKey with
              | PutReturns _ p' =>
                  Some (mkSystem p' (locals s) (status s) (stopping s) (world s))
              | PutBlocks => None
              | PutPanics =>
                  Some (mkSystem (producer s) (locals s) (Crashed "send on closed channel")
                          (stopping s) (world s))
              end = Some s' ->
              alive (status s) = true /\
              config (producer s') = config (producer s) /\
              inflight s' = inflight s ++ taken (config (producer s)) (CallPut data partitionKey) /\
              (resets (trace (world s')) + length (loop_flushes (trace (world s))))%nat
              = (resets (trace (world s)) + length (loop_flushes (trace (world s'))))%nat).
    { intros _ Hres.
      destruct (Put (producer s) data partitionKey) as [err p' | |] eqn:HPut;
        [| discriminate |].
      - injection Hres as <-. cbn [status] in Halive. cbn [producer world].
        split; [assumption |].
        destruct (Put_returns_inv _ _ _ _ _ HPut)
          as [(_ & -> & Hbig) | (_ & Hcfg & Hfit & Hq & _)].
        + split; [reflexivity |]. split; [| lia].
          unfold inflight, taken. cbn [world locals producer].
          destruct (Z.gtb_spec (len data + strlen partitionKey
                                + len (Separator (config (producer s)))) maxRecordSize); [| lia].
          rewrite app_nil_r. reflexivity.
        + split; [assumption |]. split; [| lia].
          unfold inflight. cbn [world locals producer].
          rewrite (proj1 (put_entry_taken _ _ _ Hfit)), Hq, <- !app_assoc. reflexivity.
      - injection Hres as <-. discriminate Halive. }
    destruct (status s) eqn:Hst; try discriminate Hstep;
      apply Hput; try assumption; discriminate.
  - (* Put, handing the record to the waiting loop *)
    destruct (status s) eqn:Hst; try discriminate.
    destruct (Z.gtb_spec (len data + strlen partitionKey + len (Separator (config (producer s))))
                maxRecordSize) as [Hbig | Hfit]; [discriminate |].
    cbn [orb] in Hstep.
    destruct (closed (records (producer s))); [discriminate |].
    destruct (len (queue (records (producer s))) =? 0) eqn:Hempty; [| discriminate].
    cbn [orb negb] in Hstep. injection Hstep as <-.
    apply len_zero_nil in Hempty.
    destruct (settle_alive _ _ _ Halive) as (ctl & Hret & Hp & Hl & _ & _ & Hf & Hr).
    destruct (case_record_returns _ _ _ _ _ _ _ Hret) as (batches & Hf' & Hr' & Hbuf & _).
    split; [reflexivity |]. rewrite Hp. split; [reflexivity |]. split.
    + unfold inflight. rewrite Hf, Hf', Hp, Hl, Hempty, concat_app, !app_nil_r.
      rewrite (proj2 (put_entry_taken _ _ _ Hfit)), <- !app_assoc.
      f_equal. exact Hbuf.
    + rewrite Hr, Hr', Hf, Hf', length_app. lia.
  - (* Stop *)
    destruct (status s) eqn:Hst; try discriminate.
    destruct (stopping s) eqn:Hstop; [discriminate |].
    injection Hstep as <-.
    destruct (settle_alive _ _ _ Halive) as (ctl & Hret & Hp & Hl & _ & _ & Hf & Hr).
    split; [reflexivity |]. rewrite Hp. split; [reflexivity |].
    unfold inflight. rewrite Hf, Hr, Hp, Hl.
    revert Hret. unfold bind, emit, case_done, ret.
    destruct (len (queue (records (producer s))) =? 0); cbn [fst snd trace];
      intros [= <-]; cbn [ctl_locals buf taken records chan_close queue];
      rewrite loop_flushes_app, resets_app, resets_cons, resets_nil; cbn [loop_flushes omap isReset];
      rewrite !app_nil_r; (split; [reflexivity | lia]).
  - (* a record arrives *)
    destruct (status s) eqn:Hst; try discriminate.
    unfold chan_recv in Hstep.
    destruct (queue (records (producer s))) as [| record q] eqn:Hq.
    + destruct (closed (records (producer s))); [| discriminate].
      injection Hstep as <-. discriminate Halive.
    + injection Hstep as <-.
      destruct (settle_alive _ _ _ Halive) as (ctl & Hret & Hp & Hl & _ & _ & Hf & Hr).
      destruct (case_record_returns _ _ _ _ _ _ _ Hret) as (batches & Hf' & Hr' & Hbuf & _).
      split; [reflexivity |]. rewrite Hp. split; [reflexivity |]. split.
      * unfold inflight. rewrite Hf, Hf', Hp, Hl, Hq, concat_app. cbn [records queue taken].
        rewrite app_nil_r, <- !app_assoc. f_equal.
        rewrite app_assoc, Hbuf, <- app_assoc. reflexivity.
      * rewrite Hr, Hr', Hf, Hf', length_app. lia.
  - (* a tick *)
    destruct (status s) eqn:Hst; try discriminate.
    injection Hstep as <-.
    destruct (settle_alive _ _ _ Halive) as (ctl & Hret & Hp & Hl & _ & _ & Hf & Hr).
    destruct (case_tick_returns _ _ _ _ _ Hret) as (batches & Hf' & Hr' & Hbuf & _).
    split; [reflexivity |]. rewrite Hp. split; [reflexivity |]. split.
    + unfold inflight. rewrite Hf, Hf', Hp, Hl, concat_app. cbn [taken].
      rewrite app_nil_r, <- !app_assoc. f_equal. rewrite app_assoc, Hbuf. reflexivity.
    + rewrite Hr, Hr', Hf, Hf', length_app. lia.
Qed.

Lemma run_alive (fuel : nat) (acts : list Action) :
  forall s s' : System C B,
    run fuel acts s = Some s' ->
    alive (status s') = true ->
    alive (status s) = true /\
    config (producer s') = config (producer s) /\
    inflight s' = inflight s ++ accepted (config (producer s)) acts /\
    (resets (trace (world s')) + length (loop_flushes (trace (world s))))%nat
    = (resets (trace (world s)) + length (loop_flushes (trace (world s'))))%nat.
Proof.
  induction acts as [| a acts IH]; intros s s' Hrun Halive; simpl in Hrun.
  - injection Hrun as <-. unfold accepted. simpl. rewrite app_nil_r. repeat split. assumption.
  - destruct (step fuel a s) as [s1 |] eqn:Hstep; [| discriminate].
    destruct (IH s1 s' Hrun Halive) as (Halive1 & Hcfg1 & Hin1 & Hres1).
    destruct (step_alive fuel a s s1 Hstep Halive1) as (Halive0 & Hcfg0 & Hin0 & Hres0).
    split; [assumption |]. split; [congruence |]. split; [| lia].
    rewrite Hin1, Hin0, Hcfg0, <- app_assoc. reflexivity.
Qed.

Lemma boot_fresh (defaults : Config -> Config) (c : Config) (cl : C) (b : B) :
  config (producer (boot defaults c cl b)) = defaults c /\
  inflight (boot defaults c cl b) = [] /\
  trace (world (boot defaults c cl b)) = [] /\
  stopping (boot defaults c cl b) = false /\
  records (producer (boot defaults c cl b)) = mkChan [] (BacklogSize (defaults c)) false /\
  drain (locals (boot defaults c cl b)) = false.
Proof.
  unfold boot, Start, New, inflight. cbn [config].
  destruct (loop_enter (defaults c)) as [l | msg |] eqn:Henter; cbn; repeat split.
  all: unfold loop_enter in Henter;
    destruct (BufferSize (defaults c) <? 0); [discriminate |];
    destruct (FlushInterval (defaults c) <=? 0); [discriminate |];
    injection Henter as <-; reflexivity.
Qed.

End LoopExtras.

(** ** Where the records are *)



(** X6: as long as no flush is pending and nothing has panicked, [Reset]
    has been called exactly once for every batch [loop] has passed to
    [flush]: nothing but a flush that went through resets the policy. *)
Theorem one_reset_per_loop_flush {C B : Type} `{KinesisAPI C} `{BackoffPolicy B}
    (defaults : Config -> Config) (c : Config) (cl : C) (b : B)
    (fuel : nat) (acts : list Action) (s : System C B) :
  run fuel acts (boot defaults c cl b) = Some s ->
  alive (status s) = true ->
  resets (trace (world s)) = length (loop_flushes (trace (world s))).
Proof.
  intros Hrun Halive.
  destruct (run_alive fuel acts _ _ Hrun Halive) as (_ & _ & _ & Hres).
  destruct (boot_fresh defaults c cl b) as (_ & _ & Htrace & _).
  rewrite Htrace in Hres. cbn in Hres. lia.
Qed.

Lemma one_reset_per_loop_flush_witness :
  match run 5 flaky_run (boot (fun c => c) demo_config flaky_script (demo_policy 0)) with
  | Some s =>
      resets (trace (world s)) = 1%nat /\
      length (submissions (trace (world s))) = 3%nat
  | None => False
  end.
Proof.
  destruct (run 5 flaky_run (boot (fun c => c) demo_config flaky_script (demo_policy 0)))
    as [s |] eqn:Hrun; [| vm_compute in Hrun; discriminate Hrun].
  rewrite (one_reset_per_loop_flush (fun c => c) demo_config flaky_script (demo_policy 0) 5
             flaky_run s Hrun).
  - vm_compute in Hrun. injection Hrun as <-. split; vm_compute; reflexivity.
  - vm_compute in Hrun. injection Hrun as <-. reflexivity.
Defined.

(** ** Shutdown, step by step *)

Lemma Put_enqueues_open (p p' : Producer) (data : list byte) (partitionKey : string) :
  Put p data partitionKey = PutReturns None p' ->
  closed (records p) = false /\
  len (queue (records p)) < capacity (records p) /\
  p' = mkProducer (config p)
         (mkChan (queue (records p) ++ [put_entry p data partitionKey])
            (capacity (records p)) false).
Proof.
  unfold Put, chan_send.
  destruct (len data + strlen partitionKey + len (Separator (config p)) >? maxRecordSize);
    [discriminate |].
  destruct (closed (records p)) eqn:Hc; [discriminate |].
  destruct (Z.ltb_spec (len (queue (records p))) (capacity (records p))); [| discriminate].
  intros [= <-]. repeat split. assumption.
Qed.

Lemma Put_error_unchanged (p p' : Producer) (data : list byte) (partitionKey : string)
    (e : error) :
  Put p data partitionKey = PutReturns (Some e) p' -> p' = p.
Proof.
  intros HPut. destruct (Put_returns_inv _ _ _ _ _ HPut) as [(_ & -> & _) | (Hnone & _)];
    [reflexivity | discriminate].
Qed.

Section ShutdownExtras.

Context {C B : Type} `{KinesisAPI C} `{BackoffPolicy B}.

Ltac shutdown_parts :=
  unfold shutdown_ok; cbn [locals producer status stopping];
  split; [| split; [| split]].

Lemma settle_shutdown (s : System C B) (p : Producer) (r : outcome Ctl * World C B) :
  match r.1 with Ret _ => True | _ => drain (locals s) = stopping s end ->
  closed (records p) = stopping s ->
  (forall ctl, r.1 = Ret ctl ->
     drain (ctl_locals ctl) = stopping s /\
     (is_return ctl = true -> stopping s = true /\ queue (records p) = []) /\
     (is_return ctl = false -> stopping s = true -> queue (records p) <> [])) ->
  shutdown_ok (settle s p r).
Proof.
  intros Hdrain Hclosed Hctl.
  destruct r as [[[l | l] | msg |] w]; cbn [fst settle] in *; shutdown_parts;
    try assumption; try discriminate.
  - apply (Hctl _ eq_refl).
  - intros _. apply (Hctl _ eq_refl). reflexivity.
  - apply (Hctl _ eq_refl).
  - intros _. apply (Hctl _ eq_refl). reflexivity.
Qed.

Lemma step_shutdown (fuel : nat) (a : Action) (s s' : System C B) :
  shutdown_ok s ->
  step fuel a s = Some s' ->
  shutdown_ok s'.
Proof.
  intros (Hdrain & Hclosed & Hexit & Hgo) Hstep.
  destruct a as [data partitionKey | data partitionKey | | |]; cbn [step] in Hstep.
  - (* Put *)
    assert (Hput :
              match Put (producer s) data partitionKey with
              | PutReturns _ p' =>
                  Some (mkSystem p' (locals s) (status s) (stopping s) (world s))
              | PutBlocks => None
              | PutPanics =>
                  Some (mkSystem (producer s) (locals s) (Crashed "send on closed channel")
                          (stopping s) (world s))
              end = Some s' -> shutdown_ok s').
    { destruct (Put (producer s) data partitionKey) as [[e |] p' | |] eqn:HPut;
        [| | discriminate |]; intros [= <-]; shutdown_parts; try assumption;
        try discriminate.
      - apply Put_error_unchanged in HPut. subst p'. assumption.
      - apply Put_error_unchanged in HPut. subst p'. assumption.
      - apply Put_error_unchanged in HPut. subst p'. assumption.
      - apply Put_enqueues_open in HPut. destruct HPut as (Hopen & _ & ->).
        cbn [records closed]. congruence.
      - apply Put_enqueues_open in HPut. destruct HPut as (Hopen & _ & ->).
        intros Hst. destruct (Hexit Hst) as [Hstop _]. congruence.
      - apply Put_enqueues_open in HPut. destruct HPut as (Hopen & _ & ->).
        intros _ Hstop. congruence. }
    destruct (status s); try discriminate Hstep; apply Hput; assumption.
  - (* Put, handing the record to the waiting loop *)
    destruct (status s) eqn:Hst; try discriminate.
    destruct (len data + strlen partitionKey + len (Separator (config (producer s)))
              >? maxRecordSize); [discriminate |].
    cbn [orb] in Hstep.
    destruct (closed (records (producer s))) eqn:Hopen; [discriminate |].
    destruct (len (queue (records (producer s))) =? 0); [| discriminate].
    cbn [orb negb] in Hstep. injection Hstep as <-.
    apply settle_shutdown; [destruct (fst _); trivial | congruence |].
    intros ctl Hret.
    destruct (case_record_returns _ _ _ _ _ _ _ Hret) as (_ & _ & _ & _ & Hd & Hctl).
    rewrite Hd, Hctl, Hdrain, <- Hclosed. cbn [andb].
    repeat split; try discriminate.
  - (* Stop *)
    destruct (status s) eqn:Hst; try discriminate.
    destruct (stopping s) eqn:Hstop; [discriminate |].
    injection Hstep as <-.
    apply settle_shutdown; cbn [locals stopping records chan_close closed queue].
    + unfold bind, emit, case_done, ret.
      destruct (len (queue (records (producer s))) =? 0); exact I.
    + reflexivity.
    + intros ctl. unfold bind, emit, case_done, ret.
      destruct (len (queue (records (producer s))) =? 0) eqn:Hempty; cbn [fst];
        intros [= <-]; cbn [ctl_locals is_return drain].
      * apply len_zero_nil in Hempty. repeat split; try assumption; discriminate.
      * repeat split; try discriminate. intros _ _ Hnil. rewrite Hnil in Hempty.
        discriminate Hempty.
  - (* a record arrives *)
    destruct (status s) eqn:Hst; try discriminate.
    unfold chan_recv in Hstep.
    destruct (queue (records (producer s))) as [| record q] eqn:Hq.
    + destruct (closed (records (producer s))) eqn:Hc; [| discriminate].
      injection Hstep as <-. shutdown_parts; try assumption; try discriminate.
      congruence.
    + injection Hstep as <-.
      apply settle_shutdown; cbn [records closed queue];
        [destruct (fst _); trivial | assumption |].
      intros ctl Hret.
      destruct (case_record_returns _ _ _ _ _ _ _ Hret) as (_ & _ & _ & _ & Hd & Hctl).
      rewrite Hd, Hctl, Hdrain. split; [reflexivity |].
      destruct (stopping s); cbn [andb]; [| split; discriminate].
      destruct (len q =? 0) eqn:Hempty.
      * apply len_zero_nil in Hempty. split; [split; [reflexivity | assumption] | discriminate].
      * split; [discriminate |]. intros _ _ Hnil. rewrite Hnil in Hempty. discriminate Hempty.
  - (* a tick *)
    destruct (status s) eqn:Hst; try discriminate.
    injection Hstep as <-.
    apply settle_shutdown; [destruct (fst _); trivial | assumption |].
    intros ctl Hret.
    destruct (case_tick_returns _ _ _ _ _ Hret) as (_ & _ & _ & _ & Hd & Hctl).
    rewrite Hd, Hctl, Hdrain. split; [reflexivity |].
    split; [discriminate |]. intros _. apply Hgo. reflexivity.
Qed.

Lemma run_shutdown (fuel : nat) (acts : list Action) :
  forall s s' : System C B,
    shutdown_ok s ->
    run fuel acts s = Some s' ->
    shutdown_ok s'.
Proof.
  induction acts as [| a acts IH]; intros s s' Hok Hrun; simpl in Hrun.
  - injection Hrun as <-. assumption.
  - destruct (step fuel a s) as [s1 |] eqn:Hstep; [| discriminate].
    eapply IH; [| eassumption]. eapply step_shutdown; eassumption.
Qed.

Lemma boot_shutdown (defaults : Config -> Config) (c : Config) (cl : C) (b : B) :
  shutdown_ok (boot defaults c cl b).
Proof.
  destruct (boot_fresh defaults c cl b) as (_ & _ & _ & Hstop & Hrec & Hdrain).
  unfold shutdown_ok. rewrite Hstop, Hrec, Hdrain. cbn [closed queue].
  split; [reflexivity |]. split; [reflexivity |]. split; [| discriminate].
  unfold boot, Start. destruct (loop_enter _); discriminate.
Qed.

End ShutdownExtras.

(** ** Shutdown *)

(** X7: with the send in [Stop], the done case of [loop] and the close of
    the queue taken as one step, [loop] returns only after [Stop] has been
    called, and when it has returned the queue is closed and empty; after
    [Stop], [loop] is still at its [select] only while records are queued. *)
Theorem loop_returns_only_drained {C B : Type} `{KinesisAPI C} `{BackoffPolicy B}
    (defaults : Config -> Config) (c : Config) (cl : C) (b : B)
    (fuel : nat) (acts : list Action) (s : System C B) :
  run fuel acts (boot defaults c cl b) = Some s ->
  (status s = Exited ->
     stopping s = true /\
     closed (records (producer s)) = true /\
     queue (records (producer s)) = []) /\
  (status s = Selecting -> stopping s = true -> queue (records (producer s)) <> []).
Proof.
  intros Hrun.
  destruct (run_shutdown fuel acts _ _ (boot_shutdown defaults c cl b) Hrun)
    as (_ & Hclosed & Hexit & Hgo).
  split; [| assumption].
  intros Hst. destruct (Hexit Hst) as [Hstop Hq].
  split; [assumption |]. split; [congruence | assumption].
Qed.

Lemma loop_returns_only_drained_witness :
  match run 5 scenario_A_backlog
          (boot (fun c => c) demo_config ([] : list Reply) (demo_policy 0)) with
  | Some s =>
      status s = Exited /\ stopping s = true /\
      closed (records (producer s)) = true /\ queue (records (producer s)) = []
  | None => False
  end.
Proof.
  destruct (run 5 scenario_A_backlog
              (boot (fun c => c) demo_config ([] : list Reply) (demo_policy 0)))
    as [s |] eqn:Hrun; [| vm_compute in Hrun; discriminate Hrun].
  assert (Hst : status s = Exited).
  { vm_compute in Hrun. injection Hrun as <-. reflexivity. }
  split; [exact Hst |].
  apply (proj1 (loop_returns_only_drained (fun c => c) demo_config [] (demo_policy 0) 5
                  scenario_A_backlog s Hrun) Hst).
Defined.

(** X8: the receive in [loop] never yields the nil record of a closed and
    empty channel, so [loop] never dereferences a nil record: whenever
    [loop] is at its [select], the queue is open (and the receive waits) or
    holds a record. *)
Theorem loop_never_receives_nil {C B : Type} `{KinesisAPI C} `{BackoffPolicy B}
    (defaults : Config -> Config) (c : Config) (cl : C) (b : B)
    (fuel : nat) (acts : list Action) (s : System C B) :
  run fuel acts (boot defaults c cl b) = Some s ->
  status s = Selecting ->
  chan_recv (records (producer s)) <> ReceivedNil.
Proof.
  intros Hrun Hst.
  destruct (run_shutdown fuel acts _ _ (boot_shutdown defaults c cl b) Hrun)
    as (_ & Hclosed & _ & Hgo).
  unfold chan_recv.
  destruct (queue (records (producer s))) as [| x q] eqn:Hq; [| discriminate].
  destruct (closed (records (producer s))) eqn:Hc; [| discriminate].
  exfalso. apply (Hgo Hst); [congruence | reflexivity].
Qed.

Lemma loop_never_receives_nil_witness :
  match run 5 scenario_A_stopping
          (boot (fun c => c) demo_config ([] : list Reply) (demo_policy 0)) with
  | Some s =>
      closed (records (producer s)) = true /\
      chan_recv (records (producer s)) <> ReceivedNil
  | None => False
  end.
Proof.
  destruct (run 5 scenario_A_stopping
              (boot (fun c => c) demo_config ([] : list Reply) (demo_policy 0)))
    as [s |] eqn:Hrun; [| vm_compute in Hrun; discriminate Hrun].
  split.
  - vm_compute in Hrun. injection Hrun as <-. reflexivity.
  - apply (loop_never_receives_nil (fun c => c) demo_config [] (demo_policy 0) 5
             scenario_A_stopping s Hrun).
    vm_compute in Hrun. injection Hrun as <-. reflexivity.
Defined.

(** X9: once [Stop] has handed over its done signal and closed the queue,
    a [Put] of a record that passes the size check panics on the closed
    queue, while a [Put] of an oversized record still returns
    [ErrRecordSizeExceeded]. *)
Theorem Put_after_Stop_panics {C B : Type} `{KinesisAPI C} `{BackoffPolicy B}
    (defaults : Config -> Config) (c : Config) (cl : C) (b : B)
    (fuel : nat) (acts : list Action) (s : System C B)
    (data : list byte) (partitionKey : string) :
  run fuel acts (boot defaults c cl b) = Some s ->
  stopping s = true ->
  Put (producer s) data partitionKey
  = if len data + strlen partitionKey + len (Separator (defaults c)) >? maxRecordSize
    then PutReturns (Some ErrRecordSizeExceeded) (producer s)
    else PutPanics.
Proof.
  intros Hrun Hstop.
  destruct (run_shutdown fuel acts _ _ (boot_shutdown defaults c cl b) Hrun)
    as (_ & Hclosed & _).
  assert (Hcfg : config (producer s) = defaults c).
  { destruct (run_keeps (defaults c) (fun _ => True)) with (fuel := fuel) (acts := acts)
      (s := boot defaults c cl b) (s' := s) as [(Hcfg & _) _]; auto.
    apply boot_ok. reflexivity. }
  unfold Put, chan_send. rewrite Hcfg, Hclosed, Hstop.
  destruct (len data + strlen partitionKey + len (Separator (defaults c)) >? maxRecordSize);
    reflexivity.
Qed.

Lemma Put_after_Stop_panics_witness :
  match run 5 scenario_A_stopping
          (boot (fun c => c) demo_config ([] : list Reply) (demo_policy 0)) with
  | Some s => Put (producer s) ["d"%byte] "k" = PutPanics
  | None => False
  end.
Proof.
  destruct (run 5 scenario_A_stopping
              (boot (fun c => c) demo_config ([] : list Reply) (demo_policy 0)))
    as [s |] eqn:Hrun; [| vm_compute in Hrun; discriminate Hrun].
  rewrite (Put_after_Stop_panics (fun c => c) demo_config [] (demo_policy 0) 5
             scenario_A_stopping s ["d"%byte] "k" Hrun).
  - reflexivity.
  - vm_compute in Hrun. injection Hrun as <-. reflexivity.
Defined.

(** ** Every submission, retries included *)

(** X10: in every run, every list of records handed to [PutRecords], the
    retries of [flush] included and whatever the client answers, holds at
    most 5 MiB and at most [BufferSize] records, for a buffer size that is
    set (not zero). *)
Theorem all_submissions_within_limits {C B : Type} `{KinesisAPI C} `{BackoffPolicy B}
    (defaults : Config -> Config) (c : Config) (cl : C) (b : B)
    (fuel : nat) (acts : list Action) (s : System C B) :
  BufferSize (defaults c) <> 0 ->
  run fuel acts (boot defaults c cl b) = Some s ->
  Forall (fun rs => batchSize rs <= maxRequestSize /\ len rs <= BufferSize (defaults c))
    (submissions (trace (world s))).
Proof.
  intros Hset Hrun.
  pose (W := fun w : World C B => Forall (batch_ok (defaults c)) (submissions (trace w))).
  assert (Hkeeps : system_ok (defaults c) s /\ W (world s)).
  { apply (run_keeps (defaults c) W) with (fuel := fuel) (acts := acts)
                                          (s := boot defaults c cl b).
    - intros c0 b0 t e He HW. unfold W in *. cbn [trace] in *.
      rewrite submissions_app. destruct e; try discriminate He.
      simpl. rewrite app_nil_r. assumption.
    - intros fuel0 rs reason w _ _ (Hsize & Hcount & Hcap) HW. unfold W in *.
      destruct (flush_submissions_sublists fuel0 (defaults c) rs reason w)
        as (subs & -> & Hsubs).
      apply Forall_app. split; [assumption |].
      eapply Forall_impl; [exact Hsubs |].
      intros rs' Hsub. pose proof (batchSize_sublist _ _ Hsub) as Hle.
      apply sublist_length in Hsub. unfold batch_ok, len in *.
      repeat split; lia.
    - apply boot_ok. reflexivity.
    - unfold W, boot, Start. destruct (loop_enter _); constructor.
    - assumption. }
  destruct Hkeeps as [_ HW]. unfold W in HW.
  eapply Forall_impl; [exact HW |].
  intros rs (Hsize & Hcount & Hcap). split; [assumption | lia].
Qed.

Lemma all_submissions_within_limits_witness :
  match run 5 flaky_run (boot (fun c => c) demo_config flaky_script (demo_policy 0)) with
  | Some s =>
      length (submissions (trace (world s))) = 3%nat /\
      Forall (fun rs => batchSize rs <= maxRequestSize /\ len rs <= 2)
        (submissions (trace (world s)))
  | None => False
  end.
Proof.
  destruct (run 5 flaky_run (boot (fun c => c) demo_config flaky_script (demo_policy 0)))
    as [s |] eqn:Hrun; [| vm_compute in Hrun; discriminate Hrun].
  split.
  - vm_compute in Hrun. injection Hrun as <-. vm_compute. reflexivity.
  - apply (all_submissions_within_limits (fun c => c) demo_config flaky_script
             (demo_policy 0) 5 flaky_run s).
    + vm_compute. discriminate.
    + exact Hrun.
Defined.

(** ** The backlog *)

Section BacklogExtras.

Context {C B : Type} `{KinesisAPI C} `{BackoffPolicy B}.

Lemma settle_producer (s : System C B) (p : Producer) (r : outcome Ctl * World C B) :
  producer (settle s p r) = p.
Proof. destruct r as [[[l | l] | msg |] w]; reflexivity. Qed.

Lemma step_backlog (cap : Z) (fuel : nat) (a : Action) (s s' : System C B) :
  capacity (records (producer s)) = cap ->
  len (queue (records (producer s))) <= Z.max 0 cap ->
  step fuel a s = Some s' ->
  capacity (records (producer s')) = cap /\
  len (queue (records (producer s'))) <= Z.max 0 cap.
Proof.
  intros Hcap Hlen Hstep.
  destruct a as [data partitionKey | data partitionKey | | |]; cbn [step] in Hstep.
  - assert (Hput :
              match Put (producer s) data partitionKey with
              | PutReturns _ p' =>
                  Some (mkSystem p' (locals s) (status s) (stopping s) (world s))
              | PutBlocks => None
              | PutPanics =>
                  Some (mkSystem (producer s) (locals s) (Crashed "send on closed channel")
                          (stopping s) (world s))
              end = Some s' ->
              capacity (records (producer s')) = cap /\
              len (queue (records (producer s'))) <= Z.max 0 cap).
    { destruct (Put (producer s) data partitionKey) as [[e |] p' | |] eqn:HPut;
        [| | discriminate |]; intros [= <-]; cbn [producer].
      - apply Put_error_unchanged in HPut. subst p'. split; assumption.
      - apply Put_enqueues_open in HPut. destruct HPut as (_ & Hroom & ->).
        cbn [records capacity queue]. rewrite len_snoc. split; [assumption | lia].
      - split; assumption. }
    destruct (status s); try discriminate Hstep; apply Hput; assumption.
  - destruct (status s); try discriminate.
    destruct (_ || _ || _); [discriminate |].
    injection Hstep as <-. rewrite settle_producer. split; assumption.
  - destruct (status s); try discriminate.
    destruct (stopping s); [discriminate |].
    injection Hstep as <-. rewrite settle_producer. cbn [records chan_close capacity queue].
    split; assumption.
  - destruct (status s); try discriminate.
    unfold chan_recv in Hstep.
    destruct (queue (records (producer s))) as [| record q] eqn:Hq.
    + destruct (closed (records (producer s))); [| discriminate].
      injection Hstep as <-. cbn [producer]. rewrite Hq. split; assumption.
    + injection Hstep as <-. rewrite settle_producer. cbn [records capacity queue].
      unfold len in *. cbn [length] in Hlen. split; [assumption | lia].
  - destruct (status s); try discriminate.
    injection Hstep as <-. rewrite settle_producer. split; assumption.
Qed.

Lemma run_backlog (cap : Z) (fuel : nat) (acts : list Action) :
  forall s s' : System C B,
    capacity (records (producer s)) = cap ->
    len (queue (records (producer s))) <= Z.max 0 cap ->
    run fuel acts s = Some s' ->
    capacity (records (producer s')) = cap /\
    len (queue (records (producer s'))) <= Z.max 0 cap.
Proof.
  induction acts as [| a acts IH]; intros s s' Hcap Hlen Hrun; simpl in Hrun.
  - injection Hrun as <-. split; assumption.
  - destruct (step fuel a s) as [s1 |] eqn:Hstep; [| discriminate].
    destruct (step_backlog cap fuel a s s1 Hcap Hlen Hstep) as [Hcap1 Hlen1].
    eapply IH; eassumption.
Qed.

End BacklogExtras.



(** ** What is left when [loop] returns *)



(** ** A service that accepts everything *)

Section HealthyExtras.

Context {C B : Type} `{KinesisAPI C} `{BackoffPolicy B}.

Variable I : C -> Prop.
Hypothesis I_accepting : accepting I.

Lemma flush_healthy (fuel : nat) (cfg : Config) (rs : list Entry) (reason : string)
    (w : World C B) :
  issued_by_loop reason = true ->
  healthy I w ->
  (flush (S fuel) cfg rs reason w).1 = Ret tt /\
  healthy I (flush (S fuel) cfg rs reason w).2.
Proof.
  intros Hreason [HI Hsubs].
  destruct (I_accepting (client w) (StreamName cfg) rs HI) as (out & c' & Hcall & Hzero & HI').
  rewrite (flush_success _ _ _ _ _ _ _ Hcall Hzero). cbn [fst snd].
  split; [reflexivity |]. split; [assumption |]. cbn [trace].
  rewrite submissions_app, loop_flushes_app, Hsubs. cbn. rewrite Hreason. reflexivity.
Qed.

Lemma append_and_check_healthy (fuel : nat) (cfg : Config) (backlog : Z) (record : Entry)
    (l : Locals) (w : World C B) :
  healthy I w ->
  (exists ctl, (append_and_check (S fuel) cfg backlog record l w).1 = Ret ctl) /\
  healthy I (append_and_check (S fuel) cfg backlog record l w).2.
Proof.
  intros Hw. unfold append_and_check. cbv zeta. cbn [buf bufSize drain].
  unfold bind, ret, emit.
  destruct (len (buf l ++ [record]) >=? BufferSize cfg).
  - destruct (flush_healthy fuel cfg (buf l ++ [record]) "buffer size" w eq_refl Hw)
      as [Hret [HI Hsubs]].
    destruct (flush (S fuel) cfg (buf l ++ [record]) "buffer size" w) as [[[] | msg |] w1];
      cbn [fst snd] in *; try discriminate.
    cbn [drain]. destruct (drain l && (backlog =? 0)); cbn [fst snd];
      (split; [eexists; reflexivity |]); [| split; assumption].
    split; [assumption |]. cbn [trace]. rewrite submissions_app, loop_flushes_app, Hsubs.
    reflexivity.
  - cbn [drain]. destruct (drain l && (backlog =? 0)); cbn [fst snd];
      (split; [eexists; reflexivity |]); [| assumption].
    destruct Hw as [HI Hsubs]. split; [assumption |]. cbn [trace].
    rewrite submissions_app, loop_flushes_app, Hsubs. reflexivity.
Qed.

Lemma case_record_healthy (fuel : nat) (cfg : Config) (backlog : Z) (l : Locals)
    (record : Entry) (w : World C B) :
  healthy I w ->
  (exists ctl, (case_record (S fuel) cfg backlog l record w).1 = Ret ctl) /\
  healthy I (case_record (S fuel) cfg backlog l record w).2.
Proof.
  intros Hw. rewrite case_record_split. unfold bind, ret.
  destruct (bufSize l + recordSize record >? maxRequestSize).
  - destruct (flush_healthy fuel cfg (buf l) "request size" w eq_refl Hw) as [Hret Hw1].
    destruct (flush (S fuel) cfg (buf l) "request size" w) as [[[] | msg |] w1];
      cbn [fst snd] in *; try discriminate.
    apply append_and_check_healthy. assumption.
  - apply append_and_check_healthy. assumption.
Qed.

Lemma case_tick_healthy (fuel : nat) (cfg : Config) (l : Locals) (w : World C B) :
  healthy I w ->
  (exists ctl, (case_tick (S fuel) cfg l w).1 = Ret ctl) /\
  healthy I (case_tick (S fuel) cfg l w).2.
Proof.
  intros Hw. unfold case_tick, bind, ret.
  destruct (len (buf l) >? 0).
  - destruct (flush_healthy fuel cfg (buf l) "interval" w eq_refl Hw) as [Hret Hw1].
    destruct (flush (S fuel) cfg (buf l) "interval" w) as [[[] | msg |] w1];
      cbn [fst snd] in *; try discriminate.
    split; [eexists; reflexivity | assumption].
  - cbn [fst snd]. split; [eexists; reflexivity | assumption].
Qed.

Lemma settle_healthy (s : System C B) (p : Producer) (r : outcome Ctl * World C B) :
  (exists ctl, r.1 = Ret ctl) ->
  healthy I r.2 ->
  alive (status (settle s p r)) = true /\ healthy I (world (settle s p r)).
Proof.
  intros [ctl Hret] [HI Hsubs]. destruct r as [o w]. cbn [fst snd] in *. subst o.
  destruct ctl as [l | l]; cbn [settle status world alive].
  - split; [reflexivity | split; assumption].
  - split; [reflexivity |]. destruct (stopping s); [| split; assumption].
    split; [assumption |]. cbn [trace].
    rewrite submissions_app, loop_flushes_app, Hsubs. reflexivity.
Qed.

(** With such a service no action leaves a flush pending. *)
Lemma step_healthy (fuel : nat) (a : Action) (s s' : System C B) :
  healthy I (world s) ->
  status s <> Hung ->
  step (S fuel) a s = Some s' ->
  healthy I (world s') /\ status s' <> Hung.
Proof.
  intros Hw Hst Hstep.
  destruct a as [data partitionKey | data partitionKey | | |]; cbn [step] in Hstep.
  - assert (Hput :
              match Put (producer s) data partitionKey with
              | PutReturns _ p' =>
                  Some (mkSystem p' (locals s) (status s) (stopping s) (world s))
              | PutBlocks => None
              | PutPanics =>
                  Some (mkSystem (producer s) (locals s) (Crashed "send on closed channel")
                          (stopping s) (world s))
              end = Some s' ->
              healthy I (world s') /\ status s' <> Hung).
    { destruct (Put (producer s) data partitionKey) as [err p' | |];
        [| discriminate |]; intros [= <-]; cbn [world status];
        (split; [assumption |]); [assumption | discriminate]. }
    destruct (status s); try discriminate Hstep; apply Hput; assumption.
  - destruct (status s); try discriminate.
    destruct (_ || _ || _); [discriminate |].
    injection Hstep as <-.
    destruct (case_record_healthy fuel (config (producer s)) 0 (locals s)
                (put_entry (producer s) data partitionKey) (world s) Hw) as [Hret Hw'].
    destruct (settle_healthy s (producer s) _ Hret Hw') as [Halive Hw''].
    split; [assumption |]. intros Hhung. rewrite Hhung in Halive. discriminate.
  - destruct (status s); try discriminate.
    destruct (stopping s); [discriminate |].
    injection Hstep as <-.
    match goal with |- context [settle ?s0 ?p0 ?r0] =>
      destruct (settle_healthy s0 p0 r0) as [Halive Hw''] end.
    + unfold bind, emit, case_done, ret.
      destruct (len (queue (records (producer s))) =? 0); eexists; reflexivity.
    + destruct Hw as [HI Hsubs]. unfold bind, emit, case_done, ret.
      destruct (len (queue (records (producer s))) =? 0); cbn [snd]; (split; [assumption |]);
        cbn [trace]; rewrite submissions_app, loop_flushes_app, Hsubs; reflexivity.
    + split; [assumption |]. intros Hhung. rewrite Hhung in Halive. discriminate.
  - destruct (status s); try discriminate.
    destruct (chan_recv (records (producer s))) as [record ch | |]; [| | discriminate].
    + injection Hstep as <-.
      destruct (case_record_healthy fuel (config (producer s)) (len (queue ch)) (locals s)
                  record (world s) Hw) as [Hret Hw'].
      destruct (settle_healthy s (mkProducer (config (producer s)) ch) _ Hret Hw')
        as [Halive Hw''].
      split; [assumption |]. intros Hhung. rewrite Hhung in Halive. discriminate.
    + injection Hstep as <-. cbn [world status]. split; [assumption | discriminate].
  - destruct (status s); try discriminate.
    injection Hstep as <-.
    destruct (case_tick_healthy fuel (config (producer s)) (locals s) (world s) Hw)
      as [Hret Hw'].
    destruct (settle_healthy s (producer s) _ Hret Hw') as [Halive Hw''].
    split; [assumption |]. intros Hhung. rewrite Hhung in Halive. discriminate.
Qed.

Lemma run_healthy (fuel : nat) (acts : list Action) :
  forall s s' : System C B,
    healthy I (world s) ->
    status s <> Hung ->
    run (S fuel) acts s = Some s' ->
    healthy I (world s') /\ status s' <> Hung.
Proof.
  induction acts as [| a acts IH]; intros s s' Hw Hst Hrun; simpl in Hrun.
  - injection Hrun as <-. split; assumption.
  - destruct (step (S fuel) a s) as [s1 |] eqn:Hstep; [| discriminate].
    destruct (step_healthy fuel a s s1 Hw Hst Hstep) as [Hw1 Hst1].
    eapply IH; eassumption.
Qed.

End HealthyExtras.

(** X13: with a service that answers every submission with a structured
    result reporting no failure, [loop] is never left waiting in [flush],
    and every batch it flushes is submitted exactly once: the record lists
    handed to [PutRecords] are the batches of [loop], in order. *)
Theorem healthy_service_one_submission_per_batch {C B : Type}
    `{KinesisAPI C} `{BackoffPolicy B}
    (I : C -> Prop) (defaults : Config -> Config) (c : Config) (cl : C) (b : B)
    (fuel : nat) (acts : list Action) (s : System C B) :
  accepting I ->
  I cl ->
  run (S fuel) acts (boot defaults c cl b) = Some s ->
  status s <> Hung /\
  submissions (trace (world s)) = loop_flushes (trace (world s)).
Proof.
  intros Hacc Hcl Hrun.
  destruct (run_healthy I Hacc fuel acts (boot defaults c cl b) s) as [[_ Hsubs] Hst].
  - unfold boot, Start. destruct (loop_enter _); split; assumption || reflexivity.
  - unfold boot, Start. destruct (loop_enter (config (New defaults c))) eqn:Henter;
      try discriminate.
    unfold loop_enter in Henter.
    destruct (BufferSize _ <? 0); [discriminate |].
    destruct (FlushInterval _ <=? 0); discriminate.
  - assumption.
  - split; assumption.
Qed.

Lemma structured_none_failed (f : nat -> bool) (rs : list Entry) :
  (forall i, f i = false) ->
  FailedRecordCount (structured f rs) = Some 0.
Proof.
  intros Hf. unfold structured. cbn [FailedRecordCount]. f_equal.
  assert (Hnone : filter hasError (imap (verdict f) rs) = []).
  { revert f Hf. induction rs as [| x rs IH]; intros f Hf; [reflexivity |].
    cbn [imap]. rewrite filter_hasError_cons. unfold verdict at 1. rewrite Hf. cbn.
    apply (IH (f ∘ S)). intros i. apply Hf. }
  rewrite Hnone. reflexivity.
Qed.

Lemma empty_script_accepting : accepting (fun script : list Reply => script = []).
Proof.
  intros script stream rs ->. eexists. eexists.
  split; [reflexivity |]. split; [| reflexivity].
  apply structured_none_failed. reflexivity.
Qed.

Lemma healthy_service_one_submission_per_batch_witness :
  match run 5 scenario_A_backlog
          (boot (fun c => c) demo_config ([] : list Reply) (demo_policy 0)) with
  | Some s =>
      status s = Exited /\
      submissions (trace (world s)) = loop_flushes (trace (world s))
  | None => False
  end.
Proof.
  destruct (run 5 scenario_A_backlog
              (boot (fun c => c) demo_config ([] : list Reply) (demo_policy 0)))
    as [s |] eqn:Hrun; [| vm_compute in Hrun; discriminate Hrun].
  split.
  - vm_compute in Hrun. injection Hrun as <-. reflexivity.
  - apply (healthy_service_one_submission_per_batch (fun script => script = [])
             (fun c => c) demo_config [] (demo_policy 0) 4 scenario_A_backlog s).
    + apply empty_script_accepting.
    + reflexivity.
    + exact Hrun.
Defined.

(** ** The two ends of [failures] *)

Lemma rejected_none (response : list PutRecordsResultEntry) :
  Forall (fun r => hasError r = false) response ->
  forall records, rejected records response = [].
Proof.
  induction 1 as [| r rest Hr _ IH]; intros records.
  - apply rejected_nil_r.
  - destruct records as [| x records]; [reflexivity |].
    rewrite rejected_cons, Hr. apply IH.
Qed.

Lemma rejected_all (response : list PutRecordsResultEntry) :
  Forall (fun r => hasError r = true) response ->
  forall records,
    (length response <= length records)%nat ->
    rejected records response = take (length response) records.
Proof.
  induction 1 as [| r rest Hr _ IH]; intros records Hlen.
  - rewrite rejected_nil_r. reflexivity.
  - destruct records as [| x records]; simpl in Hlen; [lia |].
    rewrite rejected_cons, Hr. cbn [length take]. f_equal. apply IH. lia.
Qed.

(** X14: when no entry of the response carries an error code, [failures]
    returns no record, however long the response is; when every entry
    carries one and there are no more entries than records, it returns the
    records the response covers, in order: the whole batch for one entry
    per record. *)
Theorem failures_none_or_all (records : list Entry) (response : list PutRecordsResultEntry) :
  (Forall (fun r => hasError r = false) response ->
     failures records response = Ret []) /\
  (Forall (fun r => hasError r = true) response ->
     (length response <= length records)%nat ->
     failures records response = Ret (take (length response) records)) /\
  (Forall (fun r => hasError r = true) response ->
     length response = length records ->
     failures records response = Ret records).
Proof.
  split; [| split].
  - intros Hnone.
    destruct (failures_range_outcome records response 0 []) as [[_ [res Hres]] | [Hex _]].
    + unfold failures. rewrite Hres. f_equal.
      rewrite (failures_range_Ret _ _ _ _ _ Hres), (rejected_none _ Hnone). reflexivity.
    + exfalso. apply Exists_exists in Hex. destruct Hex as (k & Hin & _).
      apply elem_of_accessed_from in Hin. destruct Hin as (j & r & _ & Hj & Hr).
      rewrite Forall_forall in Hnone.
      assert (Hno : hasError r = false).
      { apply Hnone. eapply list_elem_of_lookup_2. exact Hj. }
      congruence.
  - intros Hall Hlen. rewrite failures_in_bounds by assumption.
    rewrite rejected_all by assumption. reflexivity.
  - intros Hall Hlen. rewrite failures_in_bounds by lia.
    rewrite rejected_all by (assumption || lia).
    rewrite Hlen, firstn_all. reflexivity.
Qed.

Lemma failures_none_or_all_witness :
  failures demo_batch [mkResult None None; mkResult None None; mkResult None None;
                       mkResult None None] = Ret [] /\
  failures demo_batch (Records (structured (fun _ => true) demo_batch)) = Ret demo_batch.
Proof.
  split.
  - apply (proj1 (failures_none_or_all demo_batch _)). repeat constructor.
  - apply (proj2 (proj2 (failures_none_or_all demo_batch _))).
    + repeat constructor.
    + reflexivity.
Defined.
